(** * threadlocker: a shallow embedding of the thread-rotation bot

    The development follows [threadlocker.js] (the variant with the
    [ThreadCache] and [RateLimit] classes, [withRetry] with a delay table,
    [processThread] / [processThreadsBatch] and the [ThreadCreate] handler).

    JavaScript values are modelled as follows.
    - identifiers (Discord snowflakes) are strings, compared with [===];
    - [Date.now()] and [createdAt] are integers (milliseconds), type [Z];
    - a JS [Map] is a [gmap], a JS [Set] a [gset];
    - an [async] function is a state-passing function returning either a
      value or a thrown error; effects performed before a [throw] persist;
    - the chat platform is an abstract interface ([Platform]): every call
      on it may succeed or fail and may change the outside world. *)

From Stdlib Require Import ZArith Lia.
From stdpp Require Import base option list gmap strings pretty sorting.

Local Open Scope Z_scope.

(** ** JavaScript errors and results *)

Inductive JsError : Type :=
  | Error (message : string)       (* an [Error] object, [new Error(msg)] *)
  | TypeError (message : string).  (* raised by the runtime itself *)

Definition message (e : JsError) : string :=
  match e with Error m => m | TypeError m => m end.

Inductive Result (A : Type) : Type :=
  | Ok (value : A)
  | Throw (error : JsError).
Arguments Ok {A} value.
Arguments Throw {A} error.

(** [undefined.message]: the runtime's error for reading a property of
    [undefined]. *)
Definition undefined_message : JsError :=
  TypeError "Cannot read properties of undefined (reading 'message')".

(** ** Constants (threadlocker.js, lines 238-243) *)

Definition CACHE_DURATION : Z := 5 * 60 * 1000.
Definition RATE_LIMIT_MAX_OPS : nat := 5.
Definition RATE_LIMIT_WINDOW : Z := 10000.
Definition RETRY_MAX_ATTEMPTS : nat := 2.
Definition BATCH_SIZE : nat := 5.
Definition OPERATION_DELAY : Z := 100.

(** ** Threads as the program reads them

    A thread object is read through its properties; the record holds the
    values read. The program never assigns to them: it changes a thread
    only through the platform calls [setArchived], [send] and [setLocked],
    and within one call of [processThread] the flags are those of the
    thread as it was handed over. *)

Record Thread : Type := mkThread {
  id : string;
  parentId : string;
  name : string;
  createdAt : Z;
  archived : bool;
  locked : bool
}.

Record Channel : Type := mkChannel { channel_id : string }.

(** ** ThreadCache (lines 252-284) *)

Module ThreadCache.

Record Entry : Type := mkEntry {
  timestamp : Z;
  threads : list Thread
}.

Record t : Type := mk {
  cache : gmap string Entry;
  duration : Z
}.

(** [new ThreadCache(duration)] *)
Definition new (duration : Z) : t := {| cache := ∅; duration := duration |}.

(** [set(channelId, threads)], with [now] the value of [Date.now()]. *)
Definition set (now : Z) (channelId : string) (ths : list Thread) (c : t) : t :=
  {| cache := <[channelId := mkEntry now ths]> (cache c);
     duration := duration c |}.

(** [get(channelId)]:
    [if (!data || Date.now() - data.timestamp > this.duration)
       { this.cache.delete(channelId); return null; }
     return data.threads;] *)
Definition get (now : Z) (channelId : string) (c : t) : option (list Thread) * t :=
  match cache c !! channelId with
  | Some data =>
      if bool_decide (now - timestamp data > duration c)
      then (None, {| cache := delete channelId (cache c); duration := duration c |})
      else (Some (threads data), c)
  | None => (None, {| cache := delete channelId (cache c); duration := duration c |})
  end.

(** [cleanup()]: the periodic sweep. *)
Definition cleanup (now : Z) (c : t) : t :=
  {| cache := filter (λ kv, ¬ (now - timestamp kv.2 > duration c)) (cache c);
     duration := duration c |}.

End ThreadCache.

(** ** RateLimit (lines 287-335) *)

Module RateLimit.

(** [queue] holds, per thread, the [resolve] callbacks of the suspended
    callers; a callback is named by the number of its caller. *)
Record t : Type := mk {
  operations : gmap string (list Z);
  queue : gmap string (list nat);
  maxOperations : nat;
  timeWindow : Z
}.

(** [new RateLimit(maxOperations, timeWindow)] *)
Definition new (maxOps : nat) (window : Z) : t :=
  {| operations := ∅; queue := ∅; maxOperations := maxOps; timeWindow := window |}.

Inductive Admission : Type :=
  | Immediate    (* [return true] *)
  | Suspended.  (* a promise, resolved later by the timer *)

(** [(this.operations.get(threadId) || []).filter(time => now - time < this.timeWindow)] *)
Definition validOps (now : Z) (threadId : string) (r : t) : list Z :=
  filter (λ time, now - time < timeWindow r) (default [] (operations r !! threadId)).

(** [canProceed(threadId)] up to its first suspension point. On the
    suspending branch the callback is pushed on the thread's queue and a
    timer of [timeWindow] ms is set (the caller of this function keeps
    the timers); nothing is recorded in [operations]. *)
Definition canProceed (now : Z) (threadId : string) (resolve : nat) (r : t)
  : Admission * t :=
  let valid := validOps now threadId r in
  if bool_decide (maxOperations r ≤ length valid)%nat then
    let q := if bool_decide (is_Some (queue r !! threadId)) then queue r
             else <[threadId := []]> (queue r) in
    let q := <[threadId := default [] (q !! threadId) ++ [resolve]]> q in
    (Suspended,
     {| operations := operations r; queue := q;
        maxOperations := maxOperations r; timeWindow := timeWindow r |})
  else
    (Immediate,
     {| operations := <[threadId := valid ++ [now]]> (operations r);
        queue := queue r;
        maxOperations := maxOperations r; timeWindow := timeWindow r |}).

(** The body of the timer set by [canProceed]:
    [const callbacks = this.queue.get(threadId) || [];
     const callback = callbacks.shift();
     if (callback) callback(true);
     if (callbacks.length === 0) this.queue.delete(threadId);]
    The result is the caller released with [true], if any. *)
Definition timerCallback (threadId : string) (r : t) : option nat * t :=
  match default [] (queue r !! threadId) with
  | callback :: rest =>
      (Some callback,
       {| operations := operations r;
          queue := match rest with
                   | [] => delete threadId (queue r)
                   | _ => <[threadId := rest]> (queue r)
                   end;
          maxOperations := maxOperations r; timeWindow := timeWindow r |})
  | [] =>
      (None,
       {| operations := operations r; queue := delete threadId (queue r);
          maxOperations := maxOperations r; timeWindow := timeWindow r |})
  end.

(** [cleanup()]: the periodic sweep of [operations]. *)
Definition cleanup (now : Z) (r : t) : t :=
  {| operations :=
       omap (λ ops, match filter (λ time, now - time < timeWindow r) ops with
                    | [] => None
                    | valid => Some valid
                    end) (operations r);
     queue := queue r;
     maxOperations := maxOperations r; timeWindow := timeWindow r |}.

End RateLimit.

(** ** The event loop around one RateLimit object

    Several [ThreadCreate] handlers may be in flight; their calls of
    [canProceed] reach the one shared limiter in time order. [timers] are
    the pending timers in the order they were set (all have the same delay,
    so this is also the order they fire in); [admissions] logs every
    operation let through, immediately or by a timer: time, thread, caller. *)

Module EventLoop.

Record t : Type := mk {
  limiter : RateLimit.t;
  timers : list (Z * string);
  admissions : list (Z * string * nat)
}.

Definition start (r : RateLimit.t) : t :=
  {| limiter := r; timers := []; admissions := [] |}.

(** One timer fires at its due time. *)
Definition fire (l : t) (timer : Z * string) : t :=
  let '(released, r) := RateLimit.timerCallback timer.2 (limiter l) in
  {| limiter := r; timers := timers l;
     admissions := admissions l ++
       match released with
       | Some caller => [(timer.1, timer.2, caller)]
       | None => []
       end |}.

(** All timers due at [now] fire, oldest first. *)
Definition runTimers (now : Z) (l : t) : t :=
  foldl fire
    {| limiter := limiter l;
       timers := filter (λ timer, ¬ timer.1 ≤ now) (timers l);
       admissions := admissions l |}
    (filter (λ timer, timer.1 ≤ now) (timers l)).

(** A handler calls [canProceed(threadId)] at time [now]. *)
Definition call (l : t) (c : nat * (Z * string)) : t :=
  let '(caller, (now, threadId)) := c in
  let l := runTimers now l in
  match RateLimit.canProceed now threadId caller (limiter l) with
  | (RateLimit.Immediate, r) =>
      {| limiter := r; timers := timers l;
         admissions := admissions l ++ [(now, threadId, caller)] |}
  | (RateLimit.Suspended, r) =>
      {| limiter := r;
         timers := timers l ++ [(now + RateLimit.timeWindow r, threadId)];
         admissions := admissions l |}
  end.

(** The calls, given as (time, thread) in time order, then the timers
    still pending. *)
Definition run (r : RateLimit.t) (calls : list (Z * string)) : t :=
  let l := foldl call (start r) (imap pair calls) in
  foldl fire {| limiter := limiter l; timers := []; admissions := admissions l |}
    (timers l).

(** Operations admitted for [threadId] in the window [(upto - window, upto]]. *)
Definition countIn (threadId : string) (window upto : Z)
    (log : list (Z * string * nat)) : nat :=
  length (filter (λ a, a.1.2 = threadId ∧ upto - window < a.1.1 ∧ a.1.1 ≤ upto) log).

End EventLoop.

(** ** The platform (the collaborator interface the program calls) *)

Inductive Call : Type :=
  | SetArchived (threadId : string) (value : bool)  (* [thread.setArchived(false)] *)
  | Send (threadId : string) (content : string)     (* [thread.send(MESSAGE_CONTENT)] *)
  | SetLocked (threadId : string) (value : bool).   (* [thread.setLocked(true)] *)

Definition target (c : Call) : string :=
  match c with
  | SetArchived i _ => i
  | Send i _ => i
  | SetLocked i _ => i
  end.

Class Platform (W : Type) : Type := {
  clock : W → Z;                                          (* [Date.now()] *)
  sleep : Z → W → W;                                      (* [setTimeout], awaited *)
  perform : Call → W → Result unit * W;
  fetchChannel : string → W → Result Channel * W;         (* [client.channels.fetch] *)
  fetchActive : Channel → W → Result (list Thread) * W;   (* [channel.threads.fetchActive] *)
  fetchArchived : Channel → W → Result (list Thread) * W  (* [channel.threads.fetchArchived] *)
}.

(** An external call that was issued, with its outcome. *)
Inductive Event : Type :=
  | Called (c : Call) (r : Result unit).

Definition call_of (e : Event) : Call := match e with Called c _ => c end.
Definition succeeded (e : Event) : Prop := match e with Called _ r => r = Ok tt end.

(** ** Program state and the monad of [async] code *)

Record State (W : Type) : Type := mkState {
  world : W;
  threadCache : ThreadCache.t;
  rateLimit : RateLimit.t;
  trace : list Event        (* every external call issued so far, oldest first *)
}.
Arguments mkState {W} world threadCache rateLimit trace.
Arguments world {W} s.
Arguments threadCache {W} s.
Arguments rateLimit {W} s.
Arguments trace {W} s.

Definition M (W A : Type) : Type := State W → Result A * State W.

Definition ret {W A} (a : A) : M W A := λ s, (Ok a, s).

Definition throw {W A} (e : JsError) : M W A := λ s, (Throw e, s).

Definition bind {W A B} (m : M W A) (k : A → M W B) : M W B :=
  λ s, match m s with
       | (Ok a, s') => k a s'
       | (Throw e, s') => (Throw e, s')
       end.

(** [try { m } catch (error) { handler(error) }] *)
Definition tryCatch {W A} (m : M W A) (handler : JsError → M W A) : M W A :=
  λ s, match m s with
       | (Ok a, s') => (Ok a, s')
       | (Throw e, s') => handler e s'
       end.

Declare Scope async_scope.
Delimit Scope async_scope with async.
Notation "'await' x ':=' m 'in' k" := (bind m (λ x, k))
  (at level 10, x name, m at level 100, k at level 200) : async_scope.
Notation "m '>>>' k" := (bind m (λ _, k))
  (at level 100, right associativity) : async_scope.

(** [for (const x of l) body], threading the loop's local variables. *)
Fixpoint forOf {W A B} (body : B → A → M W B) (l : list A) (b : B) : M W B :=
  match l with
  | [] => ret b
  | x :: l' => bind (body b x) (forOf body l')
  end.

(** [l.slice(i, j)] for [0 ≤ i ≤ j]. *)
Definition slice {A} (i j : nat) (l : list A) : list A := take (j - i) (drop i l).

(** [l.sort(compare)]: the sort is stable; [a] stays before [b] unless
    [compare(a, b) > 0]. *)
Fixpoint insertSorted {A} (compare : A → A → Z) (x : A) (l : list A) : list A :=
  match l with
  | [] => [x]
  | y :: l' =>
      if bool_decide (compare x y ≤ 0) then x :: y :: l'
      else y :: insertSorted compare x l'
  end.

Definition sort {A} (compare : A → A → Z) (l : list A) : list A :=
  foldr (insertSorted compare) [] l.

(** ** withRetry (lines 388-406)

    The executor only needs a state, an operation on it and a way to wait,
    so it is written over any state type [S]. *)

Section Retry.

Context {St A : Type}.
Variable wait : Z → St → St.           (* [await new Promise(r => setTimeout(r, delay))] *)
Variable operation : St → Result A * St.
Variable maxRetries : nat.

Definition delays : list Z := [1000; 2000; 4000].

(** [x || y] on a number that may be [undefined]: [undefined] and [0] are falsy. *)
Definition js_or (x y : option Z) : option Z :=
  match x with
  | Some v => if bool_decide (v = 0) then y else Some v
  | None => y
  end.

(** [delays[attempt - 1] || delays[delays.length - 1]]; [setTimeout]
    treats an [undefined] delay as no delay. *)
Definition retryDelay (attempt : nat) : Z :=
  default 0 (js_or (delays !! (attempt - 1)%nat) (delays !! (length delays - 1)%nat)).

(** The statement after the loop:
    [throw new Error(`Operation failed after ${maxRetries} attempts: ${lastError.message}`)];
    with [lastError] still [undefined], reading [.message] raises a [TypeError]. *)
Definition afterLoop (lastError : option JsError) : JsError :=
  match lastError with
  | Some e =>
      Error ("Operation failed after " +:+ pretty maxRetries +:+ " attempts: " +:+ message e)
  | None => undefined_message
  end.

(** [for (let attempt = 1; attempt <= maxRetries; attempt++)]: [remaining] is
    the number of iterations the loop condition still allows,
    [maxRetries + 1 - attempt]. *)
Fixpoint retryLoop (remaining attempt : nat) (lastError : option JsError) (s : St)
    : Result A * St :=
  match remaining with
  | O => (Throw (afterLoop lastError), s)
  | S remaining' =>
      match operation s with
      | (Ok v, s') => (Ok v, s')
      | (Throw error, s') =>
          if bool_decide (attempt = maxRetries) then (Throw (afterLoop (Some error)), s')
          else retryLoop remaining' (S attempt) (Some error) (wait (retryDelay attempt) s')
      end
  end.

Definition withRetry (s : St) : Result A * St := retryLoop maxRetries 1 None s.

(** The retry contract in the words of the specification: the delay
    before the retry that follows failed attempt [attempt] is the
    schedule's entry for it, the last entry once the schedule is used up. *)
Definition scheduleDelay (schedule : list Z) (attempt : nat) : Z :=
  nth (attempt - 1) schedule (List.last schedule 0).

(** The state in which attempt [k + 1] starts when the attempts before
    it failed: attempt 1 starts at once, each later one after the
    scheduled delay. *)
Fixpoint attemptState (s : St) (k : nat) : St :=
  match k with
  | O => s
  | S k' =>
      wait (scheduleDelay delays k) (operation (attemptState s k')).2
  end.

End Retry.

(** ** The program: processThread, processThreadsBatch, the handler *)

Section Program.

Context {W : Type} `{Platform W}.
Variable MESSAGE_CONTENT : string.   (* [process.env.MESSAGE_CONTENT] *)
Variable CHANNEL_ID : string.        (* [process.env.CHANNEL_ID] *)

Local Open Scope async_scope.

(** An external read. *)
Definition external {A} (f : W → Result A * W) : M W A :=
  λ s, let '(r, w) := f (world s) in
       (r, mkState w (threadCache s) (rateLimit s) (trace s)).

(** An external write on a thread; it is appended to the trace. *)
Definition issue (c : Call) : M W unit :=
  λ s, let '(r, w) := perform c (world s) in
       (r, mkState w (threadCache s) (rateLimit s) (trace s ++ [Called c r])).

Definition sleepState (ms : Z) (s : State W) : State W :=
  mkState (sleep ms (world s)) (threadCache s) (rateLimit s) (trace s).

Definition delay (ms : Z) : M W unit := λ s, (Ok tt, sleepState ms s).

Definition when (b : bool) (m : M W unit) : M W unit := if b then m else ret tt.

(** [await rateLimit.canProceed(threadId)] as seen by one handler: either
    [true] at once, or the promise that the handler's own timer resolves
    with [true] one [timeWindow] later. *)
Definition awaitCanProceed (threadId : string) : M W bool :=
  λ s, match RateLimit.canProceed (clock (world s)) threadId 0%nat (rateLimit s) with
       | (RateLimit.Immediate, r) =>
           (Ok true, mkState (world s) (threadCache s) r (trace s))
       | (RateLimit.Suspended, r) =>
           (Ok true,
            mkState (sleep (RateLimit.timeWindow r) (world s)) (threadCache s)
                    (RateLimit.timerCallback threadId r).2 (trace s))
       end.

(** [getThreadsWithCache(channel)] (lines 408-425). [Promise.all] starts
    both fetches; it rejects if one of them does, with the error of that
    one. When both fail it rejects with the error that arrives first:
    the model takes that of [fetchActive], and what is proved of a failed
    fetch holds for either. *)
Definition getThreadsWithCache (channel : Channel) : M W (list Thread) :=
  λ s, let '(cachedThreads, c) :=
         ThreadCache.get (clock (world s)) (channel_id channel) (threadCache s) in
       match cachedThreads with
       | Some ths => (Ok ths, mkState (world s) c (rateLimit s) (trace s))
       | None =>
           let '(activeThreads, w1) := fetchActive channel (world s) in
           let '(archivedThreads, w2) := fetchArchived channel w1 in
           match activeThreads, archivedThreads with
           | Ok a, Ok b =>
               let allThreads := a ++ b in
               (Ok allThreads,
                mkState w2 (ThreadCache.set (clock w2) (channel_id channel) allThreads c)
                        (rateLimit s) (trace s))
           | Throw e, _ => (Throw e, mkState w2 c (rateLimit s) (trace s))
           | _, Throw e => (Throw e, mkState w2 c (rateLimit s) (trace s))
           end
       end.

(** [processThread(thread, isSecondLatest)] (lines 427-457). The [catch]
    block logs and re-throws. Logging and the performance monitor have no
    effect on the platform and are left out, and so is the [!thread] test:
    the function is only called on the elements of the thread list. *)
Definition processThread (thread : Thread) (isSecondLatest : bool) : M W unit :=
  tryCatch
    (when (archived thread) (issue (SetArchived (id thread) false)) >>>
     when isSecondLatest (issue (Send (id thread) MESSAGE_CONTENT)) >>>
     when (negb (locked thread)) (issue (SetLocked (id thread) true)))
    (λ error, throw error).

(** The body of [for (const thread of batch)] (lines 467-477); the
    loop's variables are [processedThreads] and [secondLatestProcessed]. *)
Definition forThread (newThreadId : string) (vars : gset string * bool) (thread : Thread)
  : M W (gset string * bool) :=
  let '(processedThreads, secondLatestProcessed) := vars in
  if bool_decide (id thread = newThreadId) || bool_decide (id thread ∈ processedThreads)
  then ret vars
  else
    await proceed := awaitCanProceed (id thread) in
    if proceed : bool then
      let isSecondLatest :=
        negb secondLatestProcessed && negb (bool_decide (id thread = newThreadId)) in
      let secondLatestProcessed :=
        if isSecondLatest then true else secondLatestProcessed in
      processThread thread isSecondLatest >>>
      delay OPERATION_DELAY >>>
      ret ({[id thread]} ∪ processedThreads, secondLatestProcessed)
    else ret vars.

(** [for (let i = 0; i < threads.length; i += BATCH_SIZE)]; [fuel] bounds
    the number of iterations. *)
Fixpoint batches (fuel i : nat) (threads : list Thread) (newThreadId : string)
    (vars : gset string * bool) : M W (gset string * bool) :=
  if bool_decide (i < length threads)%nat then
    match fuel with
    | O => ret vars
    | S fuel' =>
        let batch := slice i (i + BATCH_SIZE) threads in
        await vars' := forOf (forThread newThreadId) batch vars in
        batches fuel' (i + BATCH_SIZE)%nat threads newThreadId vars'
    end
  else ret vars.

(** [processThreadsBatch(threads, newThreadId)] (lines 459-480). *)
Definition processThreadsBatch (threads : list Thread) (newThreadId : string) : M W unit :=
  batches (length threads) 0 threads newThreadId (∅, false) >>> ret tt.

(** [(a, b) => b.createdAt - a.createdAt] *)
Definition newestFirst (a b : Thread) : Z := createdAt b - createdAt a.

(** [allThreads.filter(t => !t.locked).sort(...)] (lines 526-528) *)
Definition unlockedThreads (allThreads : list Thread) : list Thread :=
  sort newestFirst (filter (λ t, locked t = false) allThreads).

(** Lines 526-534 of the handler: the reconciliation of one thread list. *)
Definition reconcile (allThreads : list Thread) (thread : Thread) : M W unit :=
  if bool_decide (2 ≤ length (unlockedThreads allThreads))%nat
  then processThreadsBatch (unlockedThreads allThreads) (id thread)
  else ret tt.

(** The operation given to [withRetry] (lines 522-535). *)
Definition operation (thread : Thread) : M W unit :=
  await channel := external (fetchChannel CHANNEL_ID) in
  await allThreads := getThreadsWithCache channel in
  reconcile allThreads thread.

(** The [ThreadCreate] handler (lines 508-541). *)
Definition onThreadCreate (thread : Thread) : M W unit :=
  if bool_decide (parentId thread ≠ CHANNEL_ID) then ret tt
  else tryCatch (withRetry sleepState (operation thread) RETRY_MAX_ATTEMPTS)
                (λ error, ret tt).

(** *** The action plan

    The plan of the specification: the trigger is left out, a thread
    already in the plan is not entered twice, the first thread entered is
    the one selected for the message. *)

Definition actions (plan : Thread * bool) : list Call :=
  (if archived plan.1 then [SetArchived (id plan.1) false] else []) ++
  (if plan.2 then [Send (id plan.1) MESSAGE_CONTENT] else []) ++
  (if locked plan.1 then [] else [SetLocked (id plan.1) true]).

Fixpoint planFrom (planned : gset string) (selected : bool) (newThreadId : string)
    (threads : list Thread) : list (Thread * bool) :=
  match threads with
  | [] => []
  | t :: rest =>
      if bool_decide (id t = newThreadId ∨ id t ∈ planned)
      then planFrom planned selected newThreadId rest
      else (t, negb selected) :: planFrom ({[id t]} ∪ planned) true newThreadId rest
  end.

Definition actionPlan (threads : list Thread) (newThreadId : string)
  : list (Thread * bool) :=
  planFrom ∅ false newThreadId threads.

(** The "second latest": the first thread in sorted order that is not the trigger. *)
Definition secondLatest (threads : list Thread) (newThreadId : string) : option Thread :=
  head (filter (λ t, id t ≠ newThreadId) threads).

End Program.

(** ** A scripted platform

    A concrete instance of [Platform]: the clock is a counter, the
    outcomes of the coming writes are scripted ([true]: the call
    succeeds; once the script is used up every call succeeds), and the
    channel has a fixed list of active and of archived threads. *)

Record Scripted : Type := mkScripted {
  time : Z;
  outcomes : list bool;
  active : list Thread;
  archive : list Thread
}.

Definition missingPermissions : JsError := Error "Missing Permissions".

#[export] Instance scripted_platform : Platform Scripted := {|
  clock w := time w;
  sleep ms w := mkScripted (time w + ms) (outcomes w) (active w) (archive w);
  perform c w :=
    match outcomes w with
    | [] => (Ok tt, w)
    | ok :: rest =>
        (if ok : bool then Ok tt else Throw missingPermissions,
         mkScripted (time w) rest (active w) (archive w))
    end;
  fetchChannel channelId w := (Ok (mkChannel channelId), w);
  fetchActive channel w := (Ok (active w), w);
  fetchArchived channel w := (Ok (archive w), w)
|}.

(** A freshly started process: empty cache, empty limiter, nothing issued. *)
Definition boot {W} (w : W) : State W :=
  mkState w (ThreadCache.new CACHE_DURATION)
          (RateLimit.new RATE_LIMIT_MAX_OPS RATE_LIMIT_WINDOW) [].

(** Threads of the channel ["chan"] used in the examples. *)
Definition thread1 : Thread := mkThread "1" "chan" "monday" 1 false false.
Definition thread2 : Thread := mkThread "2" "chan" "tuesday" 2 false false.
Definition thread3 : Thread := mkThread "3" "chan" "wednesday" 3 false false.
Definition archived1 : Thread := mkThread "1" "chan" "monday" 1 true false.
Definition locked1 : Thread := mkThread "1" "chan" "monday" 1 false true.


(** A flaky operation for the retry executor: the state counts the
    invocations and the time waited; the first [failures] invocations
    throw, every later one returns its invocation number. *)
Definition tick (ms : Z) (s : nat * Z) : nat * Z := (s.1, s.2 + ms).

Definition flaky (failures : nat) (s : nat * Z) : Result nat * (nat * Z) :=
  let attempt := S s.1 in
  if bool_decide (attempt ≤ failures)%nat
  then (Throw (Error ("attempt " +:+ pretty attempt +:+ " failed")), (attempt, s.2))
  else (Ok attempt, (attempt, s.2)).

(** Eleven calls for thread ["42"] within ten seconds. *)
Definition burst : list (Z * string) :=
  [(0, "42"); (1000, "42"); (2000, "42"); (3000, "42"); (4000, "42");
   (5000, "42"); (6000, "42"); (7000, "42"); (8000, "42"); (9000, "42");
   (9500, "42")].

(** ** Reading a run off the trace *)

(** The recipients of the send-message calls among the calls. *)
Definition recipients (calls : list Call) : list string :=
  omap (λ c, match c with Send i _ => Some i | _ => None end) calls.

(** [evs] are the events of a computation that was to issue [planned] and
    ended with [r]: on normal return every planned call was issued and
    succeeded; on a throw the calls issued are a prefix of the planned
    ones, all succeeded but the last, and the last one failed with the
    error thrown. *)
Definition ran {A} (planned : list Call) (r : Result A) (evs : list Event) : Prop :=
  match r with
  | Ok _ => call_of <$> evs = planned ∧ Forall succeeded evs
  | Throw e =>
      ∃ pre c, evs = pre ++ [Called c (Throw e)] ∧ Forall succeeded pre ∧
               (call_of <$> evs) `prefix_of` planned
  end.

(** Running [m] from [s] appends to the trace the events of a run of [planned]. *)
Definition issues {W A} (m : M W A) (planned : list Call) (s : State W) : Prop :=
  ∃ evs, trace (m s).2 = trace s ++ evs ∧ ran planned (m s).1 evs.

(** ** What the limiter keeps on record *)

(** No thread ever has more than [maxOperations] timestamps on record. *)
Definition recordsBounded (r : RateLimit.t) : Prop :=
  ∀ threadId ops,
    RateLimit.operations r !! threadId = Some ops →
    (length ops ≤ RateLimit.maxOperations r)%nat.

(** The plan of one reconciliation (specification, 4.4): the unlocked
    threads, newest first; nothing unless there are at least two. *)
Definition reconciliationPlan (allThreads : list Thread) (thread : Thread)
  : list (Thread * bool) :=
  if bool_decide (2 ≤ length (unlockedThreads allThreads))%nat
  then actionPlan (unlockedThreads allThreads) (id thread)
  else [].

(** From [s] to [s'] the trace only grew, by events that satisfy [P]. *)
Definition appended {W} (P : Event → Prop) (s s' : State W) : Prop :=
  ∃ evs, trace s' = trace s ++ evs ∧ Forall P evs.

(** The event is not a call on thread [threadId]. *)
Definition spares (threadId : string) (e : Event) : Prop :=
  target (call_of e) ≠ threadId.

(** A quiet platform at time [now] whose channel has the given active threads. *)
Definition quiet (now : Z) (threads : list Thread) : Scripted :=
  mkScripted now [] threads [].

(** A process whose cache was filled at time 0 with [thread1] and
    [thread2], one second before [thread3] is created. *)
Definition staleState : State Scripted :=
  mkState (quiet 1000 [thread1; thread2; thread3])
          (ThreadCache.set 0 "chan" [thread1; thread2] (ThreadCache.new CACHE_DURATION))
          (RateLimit.new RATE_LIMIT_MAX_OPS RATE_LIMIT_WINDOW) [].

(** The order the sort of the handler establishes: [a] may stand before [b]. *)
Definition newerOrSame (a b : Thread) : Prop := createdAt b ≤ createdAt a.

(** ** One limiter under calls, timers and sweeps

    What happens to a [RateLimit] object during the life of the process:
    handlers call [canProceed], the timers it set fire, and the interval
    timer runs [cleanup]. [log] keeps the time and thread of every call
    that was let through at once. *)

Module Limiter.

Inductive Step : Type :=
  | CallStep (now : Z) (threadId : string) (resolve : nat)  (* [canProceed(threadId)] *)
  | TimerStep (threadId : string)                           (* a timer of [canProceed] fires *)
  | SweepStep (now : Z).                                    (* [cleanup()] *)

(** The value of [Date.now()] the step reads, if it reads the clock. *)
Definition stepTime (st : Step) : option Z :=
  match st with
  | CallStep now _ _ => Some now
  | TimerStep _ => None
  | SweepStep now => Some now
  end.

Definition step (acc : RateLimit.t * list (Z * string)) (st : Step)
  : RateLimit.t * list (Z * string) :=
  match st with
  | CallStep now threadId resolve =>
      match RateLimit.canProceed now threadId resolve acc.1 with
      | (RateLimit.Immediate, r) => (r, acc.2 ++ [(now, threadId)])
      | (RateLimit.Suspended, r) => (r, acc.2)
      end
  | TimerStep threadId => ((RateLimit.timerCallback threadId acc.1).2, acc.2)
  | SweepStep now => (RateLimit.cleanup now acc.1, acc.2)
  end.

Definition run (r : RateLimit.t) (steps : list Step) : RateLimit.t * list (Z * string) :=
  foldl step (r, []) steps.

(** The clock never goes back from one step to the next. *)
Definition timeOrdered (steps : list Step) : Prop :=
  StronglySorted Z.le (omap stepTime steps).

(** The times at which [threadId] was let through. *)
Definition timesOf (threadId : string) (log : list (Z * string)) : list Z :=
  (filter (λ a, a.2 = threadId) log).*1.

(** How many of the [times] lie in the window [(upto - window, upto]]. *)
Definition within (window upto : Z) (times : list Z) : nat :=
  length (filter (λ t, upto - window < t ∧ t ≤ upto) times).

(** The callbacks waiting for [threadId]. *)
Definition queueOf (threadId : string) (r : RateLimit.t) : list nat :=
  default [] (RateLimit.queue r !! threadId).

End Limiter.

(** ** Who waits and who was let through, thread by thread *)

(** The timers still to fire for [threadId]. *)
Definition pendingFor (threadId : string) (timers : list (Z * string)) : nat :=
  length (filter (λ timer, timer.2 = threadId) timers).

(** The callers let through for [threadId], in the order of the log. *)
Definition passedCallers (threadId : string) (log : list (Z * string * nat)) : list nat :=
  (filter (λ a, a.1.2 = threadId) log).*2.

(** The callers that called [canProceed(threadId)]. *)
Definition callersFor (threadId : string) (calls : list (nat * (Z * string))) : list nat :=
  (filter (λ c, c.2.2 = threadId) calls).*1.

(** Every pending timer has its waiting callback, and every caller so far
    was let through or waits. *)
Definition accounted (pending : list (Z * string)) (l : EventLoop.t)
    (calls : list (nat * (Z * string))) : Prop :=
  (length (EventLoop.admissions l) + length pending = length calls)%nat ∧
  ∀ threadId,
    pendingFor threadId pending = length (Limiter.queueOf threadId (EventLoop.limiter l)) ∧
    passedCallers threadId (EventLoop.admissions l)
      ++ Limiter.queueOf threadId (EventLoop.limiter l)
    ≡ₚ callersFor threadId calls.

(** ** Kinds of calls *)

(** The event is one of the three calls the program is written to make:
    un-archive, send the configured message, lock. *)
Definition sanctioned (content : string) (e : Event) : Prop :=
  ∃ threadId, call_of e = SetArchived threadId false ∨
              call_of e = Send threadId content ∨
              call_of e = SetLocked threadId true.

(** From [s] to [s'] the trace grew by at most [n] send-message calls. *)
Definition sentAtMost {W} (n : nat) (s s' : State W) : Prop :=
  ∃ evs, trace s' = trace s ++ evs ∧ (length (recipients (call_of <$> evs)) ≤ n)%nat.

(** The value of a result, if there is one. *)
Definition get_value {A} (r : Result A) : option A :=
  match r with Ok v => Some v | Throw _ => None end.

(** ** PerformanceMonitor (lines 338-380)

    What [start] stores ([performance.now()] and [process.memoryUsage()])
    is a [Reading]; what [end] pushes on the history (the duration and the
    memory difference) is computed from the stored reading and the reading
    at the end by [measure]. Logging is left out. *)

Module PerformanceMonitor.

Section Monitor.

Context {Reading Measurement : Type}.
Variable measure : Reading → Reading → Measurement.

Record t : Type := mk {
  metrics : gmap string Reading;
  history : gmap string (list Measurement)
}.

(** [new PerformanceMonitor()] *)
Definition new : t := {| metrics := ∅; history := ∅ |}.

(** [start(operation)] *)
Definition start (operation : string) (reading : Reading) (m : t) : t :=
  {| metrics := <[operation := reading]> (metrics m); history := history m |}.

(** [end(operation)]: nothing happens without a stored reading; with one,
    the measurement is pushed, the oldest is dropped once there are more
    than 100, and the stored reading is deleted. *)
Definition finish (operation : string) (reading : Reading) (m : t) : t :=
  match metrics m !! operation with
  | Some data =>
      let h := if bool_decide (is_Some (history m !! operation)) then history m
               else <[operation := []]> (history m) in
      let pushed := default [] (h !! operation) ++ [measure data reading] in
      let kept := if bool_decide (100 < length pushed)%nat then tail pushed else pushed in
      {| metrics := delete operation (metrics m);
         history := <[operation := kept]> h |}
  | None => m
  end.

(** [getMetrics(operation)] *)
Definition getMetrics (operation : string) (m : t) : list Measurement :=
  default [] (history m !! operation).

Inductive Op : Type :=
  | Start (operation : string) (reading : Reading)
  | Finish (operation : string) (reading : Reading).

Definition apply (m : t) (op : Op) : t :=
  match op with
  | Start operation reading => start operation reading m
  | Finish operation reading => finish operation reading m
  end.

Definition run (ops : list Op) : t := foldl apply new ops.

End Monitor.

End PerformanceMonitor.

(** * The first variant of the file (threadlocker.js, lines 1-232) *)

(** ** RateLimit (lines 12-32): a full window turns the caller away *)

Module BasicRateLimit.

Record t : Type := mk {
  operations : gmap string (list Z);
  maxOperations : nat;
  timeWindow : Z
}.

Definition new (maxOps : nat) (window : Z) : t :=
  {| operations := ∅; maxOperations := maxOps; timeWindow := window |}.

(** [canProceed(threadId)]: [false] when the window is full, else the
    time is recorded and the answer is [true]. *)
Definition canProceed (now : Z) (threadId : string) (r : t) : bool * t :=
  let validOps :=
    filter (λ time, now - time < timeWindow r) (default [] (operations r !! threadId)) in
  if bool_decide (maxOperations r ≤ length validOps)%nat then (false, r)
  else (true,
        {| operations := <[threadId := validOps ++ [now]]> (operations r);
           maxOperations := maxOperations r; timeWindow := timeWindow r |}).

(** One call, given as (time, thread); [acc.2] logs the calls answered [true]. *)
Definition call (acc : t * list (Z * string)) (c : Z * string) : t * list (Z * string) :=
  match canProceed c.1 c.2 acc.1 with
  | (true, r) => (r, acc.2 ++ [c])
  | (false, r) => (r, acc.2)
  end.

Definition run (r : t) (calls : list (Z * string)) : t * list (Z * string) :=
  foldl call (r, []) calls.

End BasicRateLimit.

Module Basic.

(** ** withRetry (lines 72-82) *)

Section Retry.

Context {St A : Type}.
Variable wait : Z → St → St.
Variable operation : St → Result A * St.
Variable maxRetries : nat.

(** The loop; falling out of it the function returns [undefined], here [None]. *)
Fixpoint retryLoop (remaining attempt : nat) (s : St) : Result (option A) * St :=
  match remaining with
  | O => (Ok None, s)
  | S remaining' =>
      match operation s with
      | (Ok v, s') => (Ok (Some v), s')
      | (Throw error, s') =>
          if bool_decide (attempt = maxRetries) then (Throw error, s')
          else retryLoop remaining' (S attempt) (wait (1000 * Z.of_nat attempt) s')
      end
  end.

Definition withRetry (s : St) : Result (option A) * St := retryLoop maxRetries 1 s.

(** The state in which attempt [k + 1] starts when the attempts before it
    failed: after failed attempt [k] the loop waits [1000 * k] ms. *)
Fixpoint attemptState (s : St) (k : nat) : St :=
  match k with
  | O => s
  | S k' => wait (1000 * Z.of_nat k) (operation (attemptState s k')).2
  end.

End Retry.

(** ** getThreadsWithCache (lines 54-57 and 84-100)

    The cache is one global object, [{ timestamp: 0, threads: [] }] at the
    start; the state is the outside world and that object. *)

Definition initialCache : ThreadCache.Entry := ThreadCache.mkEntry 0 [].

Section Cache.

Context {W : Type} `{Platform W}.

Definition getThreadsWithCache (channel : Channel) (st : W * ThreadCache.Entry)
  : Result (list Thread) * (W * ThreadCache.Entry) :=
  let now := clock st.1 in
  if bool_decide (now - ThreadCache.timestamp st.2 < CACHE_DURATION)
  then (Ok (ThreadCache.threads st.2), st)
  else
    match fetchActive channel st.1 with
    | (Throw e, w1) => (Throw e, (w1, st.2))
    | (Ok activeThreads, w1) =>
        match fetchArchived channel w1 with
        | (Throw e, w2) => (Throw e, (w2, st.2))
        | (Ok archivedThreads, w2) =>
            let allThreads := activeThreads ++ archivedThreads in
            (Ok allThreads, (w2, ThreadCache.mkEntry now allThreads))
        end
    end.

End Cache.

End Basic.

(** ** More concrete inputs *)

(** A platform during an outage: the clock stands still, the channel is
    found, listing its active threads fails. *)
Record Outage : Type := mkOutage { outageTime : Z }.

Definition requestTimedOut : JsError := Error "Request timed out".

#[export] Instance outage_platform : Platform Outage := {|
  clock w := outageTime w;
  sleep ms w := w;
  perform c w := (Ok tt, w);
  fetchChannel channelId w := (Ok (mkChannel channelId), w);
  fetchActive channel w := (Throw requestTimedOut, w);
  fetchArchived channel w := (Ok [], w)
|}.

(** Seven calls for thread ["42"] in six seconds, a sweep, a timer. *)
Definition busy : list Limiter.Step :=
  [Limiter.CallStep 0 "42" 0; Limiter.CallStep 1000 "42" 1; Limiter.CallStep 2000 "42" 2;
   Limiter.CallStep 3000 "42" 3; Limiter.CallStep 4000 "42" 4; Limiter.CallStep 5000 "42" 5;
   Limiter.SweepStep 5500; Limiter.CallStep 6000 "42" 6; Limiter.TimerStep "42"].

(** * Properties *)

(** ** The thread-set cache *)

Lemma get_hit (now : Z) (channelId : string) (c : ThreadCache.t) (data : ThreadCache.Entry) :
  ThreadCache.cache c !! channelId = Some data →
  now - ThreadCache.timestamp data ≤ ThreadCache.duration c →
  ThreadCache.get now channelId c = (Some (ThreadCache.threads data), c).
Proof.
  intros Hdata Hfresh. unfold ThreadCache.get. rewrite Hdata.
  rewrite bool_decide_eq_false_2 by lia. reflexivity.
Qed.

Lemma get_expired (now : Z) (channelId : string) (c : ThreadCache.t) (data : ThreadCache.Entry) :
  ThreadCache.cache c !! channelId = Some data →
  now - ThreadCache.timestamp data > ThreadCache.duration c →
  ThreadCache.get now channelId c
  = (None, ThreadCache.mk (delete channelId (ThreadCache.cache c)) (ThreadCache.duration c)).
Proof.
  intros Hdata Hold. unfold ThreadCache.get. rewrite Hdata.
  rewrite bool_decide_eq_true_2 by lia. reflexivity.
Qed.

Lemma get_missing (now : Z) (channelId : string) (c : ThreadCache.t) :
  ThreadCache.cache c !! channelId = None →
  ThreadCache.get now channelId c
  = (None, ThreadCache.mk (delete channelId (ThreadCache.cache c)) (ThreadCache.duration c)).
Proof. intros Hdata. unfold ThreadCache.get. rewrite Hdata. reflexivity. Qed.

(** C5, as stated, fails at the boundary: a snapshot stored at time 0 is
    still returned by a [get] made exactly [CACHE_DURATION] later, although
    the time elapsed is not strictly less than the cache duration. *)
Lemma C5_counterexample :
  let c := ThreadCache.set 0 "chan" [thread1] (ThreadCache.new CACHE_DURATION) in
  ¬ (CACHE_DURATION - 0 < ThreadCache.duration c) ∧
  (ThreadCache.get CACHE_DURATION "chan" c).1 = Some [thread1].
Proof. split; [vm_compute; discriminate | vm_compute; reflexivity]. Qed.

(** C5, amended: for every channel, [get] returns the stored snapshot
    exactly when an entry exists and at most [duration] has elapsed since
    its [set] ([now - timestamp ≤ duration]), and then leaves the cache as
    it is; a read strictly past expiry, or with no entry, returns absent and
    leaves no entry for the channel. *)
Theorem C5_get_valid_up_to_duration (now : Z) (channelId : string) (c : ThreadCache.t) :
  (∀ ths, (ThreadCache.get now channelId c).1 = Some ths ↔
          ∃ data, ThreadCache.cache c !! channelId = Some data ∧
                  ThreadCache.threads data = ths ∧
                  now - ThreadCache.timestamp data ≤ ThreadCache.duration c) ∧
  (is_Some (ThreadCache.get now channelId c).1 → (ThreadCache.get now channelId c).2 = c) ∧
  ((ThreadCache.get now channelId c).1 = None →
   ThreadCache.cache (ThreadCache.get now channelId c).2 !! channelId = None ∧
   ∀ other, other ≠ channelId →
     ThreadCache.cache (ThreadCache.get now channelId c).2 !! other
     = ThreadCache.cache c !! other).
Proof.
  destruct (ThreadCache.cache c !! channelId) as [data|] eqn:Hdata.
  - destruct (decide (now - ThreadCache.timestamp data ≤ ThreadCache.duration c)) as [Hle|Hgt].
    + rewrite (get_hit _ _ _ _ Hdata Hle). simpl. split; [|split].
      * intros ths. split.
        -- intros [= <-]. eauto.
        -- intros (data' & [= <-] & <- & _). reflexivity.
      * reflexivity.
      * discriminate.
    + rewrite (get_expired _ _ _ _ Hdata) by lia. simpl. split; [|split].
      * intros ths. split; [discriminate|].
        intros (data' & [= <-] & _ & Hle). lia.
      * intros [? [=]].
      * intros _. split; [apply lookup_delete_eq|].
        intros other Hne. by apply lookup_delete_ne.
  - rewrite (get_missing _ _ _ Hdata). simpl. split; [|split].
    + intros ths. split; [discriminate|]. intros (data' & [=] & _).
    + intros [? [=]].
    + intros _. split; [apply lookup_delete_eq|].
      intros other Hne. by apply lookup_delete_ne.
Qed.

(** A [get] right after a [set] sees the snapshot for the whole duration. *)
Lemma get_after_set (now later : Z) (channelId : string) (ths : list Thread) (c : ThreadCache.t) :
  later - now ≤ ThreadCache.duration c →
  (ThreadCache.get later channelId (ThreadCache.set now channelId ths c)).1 = Some ths.
Proof.
  intros Hle. unfold ThreadCache.get, ThreadCache.set. simpl.
  rewrite lookup_insert_eq. simpl.
  rewrite bool_decide_eq_false_2 by lia. reflexivity.
Qed.

(** The periodic sweep drops the entries [get] would drop, and no other. *)
Lemma cleanup_lookup (now : Z) (channelId : string) (c : ThreadCache.t) (data : ThreadCache.Entry) :
  ThreadCache.cache (ThreadCache.cleanup now c) !! channelId = Some data ↔
  ThreadCache.cache c !! channelId = Some data ∧
  now - ThreadCache.timestamp data ≤ ThreadCache.duration c.
Proof.
  unfold ThreadCache.cleanup. simpl. rewrite map_lookup_filter_Some. simpl.
  split; intros [Hdata Hfresh]; (split; [done | lia]).
Qed.

(** ** The retry executor *)

Section RetryFacts.

Context {St A : Type}.
Variable wait : Z → St → St.
Variable operation : St → Result A * St.
Variable maxRetries : nat.

(** The delay the code computes is the one of the schedule. *)
Lemma retryDelay_schedule (attempt : nat) :
  (1 ≤ attempt)%nat → retryDelay attempt = scheduleDelay delays attempt.
Proof.
  intros Hpos. unfold retryDelay, scheduleDelay.
  destruct attempt as [|[|[|[|attempt]]]]; [lia | reflexivity ..| ].
  replace (S (S (S (S attempt))) - 1)%nat with (S (S (S attempt))) by lia.
  destruct attempt; reflexivity.
Qed.

Lemma scheduleDelay_values :
  scheduleDelay delays 1 = 1000 ∧ scheduleDelay delays 2 = 2000 ∧
  scheduleDelay delays 3 = 4000 ∧
  ∀ attempt, (length delays < attempt)%nat → scheduleDelay delays attempt = 4000.
Proof.
  repeat split. intros attempt Hlong. simpl in Hlong. unfold scheduleDelay.
  destruct attempt as [|[|[|[|attempt]]]]; [lia .. | ].
  replace (S (S (S (S attempt))) - 1)%nat with (S (S (S attempt))) by lia.
  destruct attempt; reflexivity.
Qed.

(** From [failed] failed attempts on, [more] failures and then a
    success: the loop returns the value of that success. *)
Lemma retryLoop_succeeds (s : St) (v : A) (more : nat) :
  ∀ (failed : nat) (lastError : option JsError),
    (failed + more + 1 ≤ maxRetries)%nat →
    (∀ k, (failed ≤ k < failed + more)%nat →
          ∃ e, (operation (attemptState wait operation s k)).1 = Throw e) →
    (operation (attemptState wait operation s (failed + more))).1 = Ok v →
    retryLoop wait operation maxRetries (maxRetries - failed) (S failed) lastError
              (attemptState wait operation s failed)
    = (Ok v, (operation (attemptState wait operation s (failed + more))).2).
Proof.
  induction more as [|more IH]; intros failed lastError Hle Hfail Hok.
  - replace (failed + 0)%nat with failed in * by lia.
    destruct (maxRetries - failed)%nat as [|remaining] eqn:Hrem; [lia|].
    simpl. destruct (operation (attemptState wait operation s failed)) as [r s'].
    simpl in Hok. subst r. reflexivity.
  - destruct (maxRetries - failed)%nat as [|remaining] eqn:Hrem; [lia|].
    simpl.
    destruct (Hfail failed ltac:(lia)) as [e He].
    destruct (operation (attemptState wait operation s failed)) as [r s'] eqn:Hop.
    simpl in He. subst r.
    rewrite bool_decide_eq_false_2 by lia.
    replace remaining with (maxRetries - S failed)%nat by lia.
    replace (wait (retryDelay (S failed)) s')
      with (attemptState wait operation s (S failed)).
    2:{ simpl attemptState. rewrite Hop. simpl.
        rewrite <- (retryDelay_schedule (S failed)) by lia. reflexivity. }
    replace (failed + S more)%nat with (S failed + more)%nat in * by lia.
    apply IH; [lia | | exact Hok].
    intros k Hk. apply Hfail. lia.
Qed.

(** From [failed] failed attempts on, every attempt left fails: the loop
    ends by throwing the error built from the last failure, and does not
    wait after it. *)
Lemma retryLoop_exhausts (s : St) (errors : nat → JsError) (more : nat) :
  ∀ (failed : nat) (lastError : option JsError),
    (failed + more + 1 = maxRetries)%nat →
    (∀ k, (failed ≤ k < maxRetries)%nat →
          (operation (attemptState wait operation s k)).1 = Throw (errors k)) →
    retryLoop wait operation maxRetries (maxRetries - failed) (S failed) lastError
              (attemptState wait operation s failed)
    = (Throw (afterLoop maxRetries (Some (errors (maxRetries - 1)%nat))),
       (operation (attemptState wait operation s (maxRetries - 1))).2).
Proof.
  induction more as [|more IH]; intros failed lastError Hle Hfail.
  - replace (maxRetries - failed)%nat with 1%nat by lia.
    replace (maxRetries - 1)%nat with failed by lia.
    simpl. pose proof (Hfail failed ltac:(lia)) as He.
    destruct (operation (attemptState wait operation s failed)) as [r s'].
    simpl in He. subst r.
    rewrite bool_decide_eq_true_2 by lia. reflexivity.
  - destruct (maxRetries - failed)%nat as [|remaining] eqn:Hrem; [lia|].
    simpl. pose proof (Hfail failed ltac:(lia)) as He.
    destruct (operation (attemptState wait operation s failed)) as [r s'] eqn:Hop.
    simpl in He. subst r.
    rewrite bool_decide_eq_false_2 by lia.
    replace remaining with (maxRetries - S failed)%nat by lia.
    replace (wait (retryDelay (S failed)) s')
      with (attemptState wait operation s (S failed)).
    2:{ simpl attemptState. rewrite Hop. simpl.
        rewrite <- (retryDelay_schedule (S failed)) by lia. reflexivity. }
    apply IH; [lia|].
    intros k Hk. apply Hfail. lia.
Qed.

(** C4. For every operation and every [N] with [1 ≤ N ≤ maxRetries]: if
    attempts [1 .. N-1] fail and attempt [N] succeeds, [withRetry] returns
    the value of attempt [N] (in the state that attempt left); if all
    [maxRetries ≥ 1] attempts fail, it throws the error
    "Operation failed after maxRetries attempts: <message of the last
    error>", without waiting after the last attempt; the delay waited
    before each retry is the schedule's entry (1000, 2000, 4000 ms), and
    4000 ms for every attempt beyond the schedule. *)
Theorem C4_retry_contract (s : St) :
  (∀ (N : nat) (v : A),
     (1 ≤ N ≤ maxRetries)%nat →
     (∀ k, (k < N - 1)%nat →
           ∃ e, (operation (attemptState wait operation s k)).1 = Throw e) →
     (operation (attemptState wait operation s (N - 1))).1 = Ok v →
     withRetry wait operation maxRetries s
     = (Ok v, (operation (attemptState wait operation s (N - 1))).2)) ∧
  (∀ errors : nat → JsError,
     (1 ≤ maxRetries)%nat →
     (∀ k, (k < maxRetries)%nat →
           (operation (attemptState wait operation s k)).1 = Throw (errors k)) →
     withRetry wait operation maxRetries s
     = (Throw (Error ("Operation failed after " +:+ pretty maxRetries +:+ " attempts: "
                      +:+ message (errors (maxRetries - 1)%nat))),
        (operation (attemptState wait operation s (maxRetries - 1))).2)) ∧
  (∀ attempt, (1 ≤ attempt)%nat →
     retryDelay attempt = scheduleDelay delays attempt ∧
     scheduleDelay delays attempt
     = match attempt with 1%nat => 1000 | 2%nat => 2000 | _ => 4000 end).
Proof.
  split; [|split].
  - intros N v HN Hfail Hok. unfold withRetry.
    pose proof (retryLoop_succeeds s v (N - 1) 0 None) as Hloop.
    replace (maxRetries - 0)%nat with maxRetries in Hloop by lia.
    simpl in Hloop. apply Hloop; [lia | | exact Hok].
    intros k Hk. apply Hfail. lia.
  - intros errors Hpos Hfail. unfold withRetry.
    pose proof (retryLoop_exhausts s errors (maxRetries - 1) 0 None) as Hloop.
    replace (maxRetries - 0)%nat with maxRetries in Hloop by lia.
    simpl in Hloop. apply Hloop; [lia|].
    intros k Hk. apply Hfail. lia.
  - intros attempt Hpos. split; [by apply retryDelay_schedule|].
    unfold scheduleDelay.
    destruct attempt as [|[|[|[|attempt]]]]; [lia | reflexivity .. | ].
    replace (S (S (S (S attempt))) - 1)%nat with (S (S (S attempt))) by lia.
    destruct attempt; reflexivity.
Qed.

(** C10. With [maxRetries = 0] the operation is never invoked (whatever
    it is, the state is left as it was) and what is thrown is not the
    "Operation failed after ..." error built from a last error: no last
    error was recorded, and reading its message raises a [TypeError]. *)
Theorem C10_zero_attempts (s : St) :
  withRetry wait operation 0 s = (Throw undefined_message, s) ∧
  retryLoop wait operation 0 0 1 None s = (Throw (afterLoop 0 None), s) ∧
  ∀ lastError : JsError,
    (withRetry wait operation 0 s).1 ≠ Throw (afterLoop 0 (Some lastError)).
Proof.
  split; [reflexivity|]. split; [reflexivity|].
  intros lastError. simpl. discriminate.
Qed.

End RetryFacts.

(** The contract at work: one failure, then success at the second of two
    attempts, after the first delay of the schedule; and three failures in
    three attempts. *)
Lemma C4_witness :
  withRetry tick (flaky 1) 2 (0%nat, 0) = (Ok 2%nat, (2%nat, 1000)) ∧
  withRetry tick (flaky 5) 3 (0%nat, 0)
  = (Throw (Error "Operation failed after 3 attempts: attempt 3 failed"), (3%nat, 3000)).
Proof.
  split.
  - etransitivity.
    + apply (proj1 (C4_retry_contract tick (flaky 1) 2 (0%nat, 0)) 2%nat 2%nat).
      * lia.
      * intros k Hk. assert (k = 0%nat) as -> by lia. eexists. reflexivity.
      * reflexivity.
    + vm_compute. reflexivity.
  - etransitivity.
    + apply (proj1 (proj2 (C4_retry_contract tick (flaky 5) 3 (0%nat, 0)))
               (λ k, Error ("attempt " +:+ pretty (S k) +:+ " failed"))).
      * lia.
      * intros k Hk.
        destruct k as [|[|[|k]]]; [reflexivity .. | lia].
    + vm_compute. reflexivity.
Defined.

(** ** The rate limiter *)

Lemma new_recordsBounded (maxOps : nat) (window : Z) :
  recordsBounded (RateLimit.new maxOps window).
Proof. intros threadId ops. simpl. by rewrite lookup_empty. Qed.

Lemma canProceed_recordsBounded (now : Z) (threadId : string) (resolve : nat) (r : RateLimit.t) :
  recordsBounded r → recordsBounded (RateLimit.canProceed now threadId resolve r).2.
Proof.
  intros Hr. unfold RateLimit.canProceed. case_bool_decide as Hfull; simpl.
  - exact Hr.
  - intros other ops. simpl.
    destruct (decide (threadId = other)) as [->|Hne].
    + rewrite lookup_insert_eq. intros [= <-]. rewrite length_app. simpl. lia.
    + rewrite lookup_insert_ne by done. apply Hr.
Qed.

Lemma timerCallback_recordsBounded (threadId : string) (r : RateLimit.t) :
  recordsBounded r → recordsBounded (RateLimit.timerCallback threadId r).2.
Proof.
  intros Hr. unfold RateLimit.timerCallback.
  destruct (default [] (RateLimit.queue r !! threadId)); exact Hr.
Qed.

Lemma cleanup_recordsBounded (now : Z) (r : RateLimit.t) :
  recordsBounded r → recordsBounded (RateLimit.cleanup now r).
Proof.
  intros Hr threadId ops. unfold RateLimit.cleanup. simpl. rewrite lookup_omap.
  destruct (RateLimit.operations r !! threadId) as [old|] eqn:Hold; [|done]. simpl.
  pose proof (length_filter (λ time, now - time < RateLimit.timeWindow r) old) as Hlen.
  destruct (filter _ old) as [|time valid]; [done|].
  intros [= <-]. specialize (Hr threadId old Hold). lia.
Qed.

(** An immediate admission is always recorded; a release by the timer never is. *)
Lemma canProceed_immediate (now : Z) (threadId : string) (resolve : nat) (r : RateLimit.t) :
  (RateLimit.canProceed now threadId resolve r).1 = RateLimit.Immediate ↔
  (length (RateLimit.validOps now threadId r) < RateLimit.maxOperations r)%nat.
Proof.
  unfold RateLimit.canProceed. case_bool_decide; simpl; split; intros; (done || lia).
Qed.

Lemma timerCallback_records_nothing (threadId : string) (r : RateLimit.t) :
  RateLimit.operations (RateLimit.timerCallback threadId r).2 = RateLimit.operations r.
Proof.
  unfold RateLimit.timerCallback.
  by destruct (default [] (RateLimit.queue r !! threadId)).
Qed.

(** Every suspended caller is released, in the order of suspension. *)
Lemma timerCallback_fifo (threadId : string) (r : RateLimit.t) (caller : nat) (rest : list nat) :
  RateLimit.queue r !! threadId = Some (caller :: rest) →
  (RateLimit.timerCallback threadId r).1 = Some caller ∧
  default [] (RateLimit.queue (RateLimit.timerCallback threadId r).2 !! threadId) = rest.
Proof.
  intros Hq. unfold RateLimit.timerCallback. rewrite Hq. simpl. split; [done|].
  destruct rest; simpl.
  - by rewrite lookup_delete_eq.
  - by rewrite lookup_insert_eq.
Qed.

(** C2 on the code: with the default limits (5 operations per 10000 ms),
    five calls for thread "42" at 0 .. 4000 ms are admitted at once; the six
    calls that follow at 5000 .. 9500 ms are suspended and each is released
    by its timer 10000 ms later, unconditionally and unrecorded. The
    limiter so admits six operations for the thread in the window
    (9500, 19500], more than [maxOperations]. *)
Theorem C2_released_callers_exceed_limit :
  let log := EventLoop.admissions
               (EventLoop.run (RateLimit.new RATE_LIMIT_MAX_OPS RATE_LIMIT_WINDOW) burst) in
  log = [(0, "42", 0%nat); (1000, "42", 1%nat); (2000, "42", 2%nat);
         (3000, "42", 3%nat); (4000, "42", 4%nat);
         (15000, "42", 5%nat); (16000, "42", 6%nat); (17000, "42", 7%nat);
         (18000, "42", 8%nat); (19000, "42", 9%nat); (19500, "42", 10%nat)] ∧
  EventLoop.countIn "42" RATE_LIMIT_WINDOW 19500 log = 6%nat ∧
  (RATE_LIMIT_MAX_OPS < EventLoop.countIn "42" RATE_LIMIT_WINDOW 19500 log)%nat.
Proof. vm_compute. repeat split; lia. Qed.

(** ** Runs and their traces *)

Lemma ran_app_ok {A B} (p1 p2 : list Call) (a : A) (r : Result B) (e1 e2 : list Event) :
  ran p1 (Ok a) e1 → ran p2 r e2 → ran (p1 ++ p2) r (e1 ++ e2).
Proof.
  intros [Hcalls1 Hok1] H2. destruct r as [b|e]; simpl in *.
  - destruct H2 as [Hcalls2 Hok2]. split.
    + rewrite fmap_app. congruence.
    + by apply Forall_app.
  - destruct H2 as (pre & c & -> & Hpre & Hprefix).
    exists (e1 ++ pre), c. split; [by rewrite app_assoc|]. split.
    + by apply Forall_app.
    + rewrite fmap_app, Hcalls1. by apply prefix_app.
Qed.

Lemma ran_app_throw {A B} (p1 p2 : list Call) (e : JsError) (e1 : list Event) :
  ran p1 (Throw e : Result A) e1 → ran (p1 ++ p2) (Throw e : Result B) e1.
Proof.
  intros (pre & c & -> & Hpre & Hprefix). exists pre, c.
  split; [done|]. split; [done|]. by apply prefix_app_r.
Qed.

(** The calls issued are always a prefix of the planned ones. *)
Lemma ran_prefix {A} (planned : list Call) (r : Result A) (evs : list Event) :
  ran planned r evs → (call_of <$> evs) `prefix_of` planned.
Proof.
  destruct r as [a|e]; simpl.
  - intros [<- _]. done.
  - intros (pre & c & _ & _ & Hprefix). done.
Qed.

(** A throw is always the failure of the call issued last. *)
Lemma ran_throw_last {A} (planned : list Call) (e : JsError) (evs : list Event) :
  ran planned (Throw e : Result A) evs →
  ∃ pre c, evs = pre ++ [Called c (Throw e)] ∧ Forall succeeded pre.
Proof. intros (pre & c & -> & Hpre & _). eauto. Qed.

Section ProgramFacts.

Context {W : Type} `{Platform W}.
Variable MESSAGE_CONTENT : string.
Variable CHANNEL_ID : string.

Implicit Types (s : State W) (thread : Thread) (threads : list Thread).

Lemma issues_ret {A} (a : A) s : issues (ret a) [] s.
Proof. exists []. simpl. rewrite app_nil_r. done. Qed.

Lemma issues_issue (c : Call) s : issues (issue c) [c] s.
Proof.
  unfold issues, issue. destruct (perform c (world s)) as [r w] eqn:Hp. simpl.
  exists [Called c r]. split; [done|].
  destruct r as [[]|e]; simpl.
  - split; [done|]. by repeat constructor.
  - exists [], c. split; [done|]. split; [constructor|]. done.
Qed.

Lemma issues_bind {A B} (m : M W A) (k : A → M W B) (p1 p2 : list Call) s :
  issues m p1 s →
  (∀ a s', m s = (Ok a, s') → issues (k a) p2 s') →
  issues (bind m k) (p1 ++ p2) s.
Proof.
  intros (e1 & Htrace1 & Hran1) Hk. unfold issues, bind.
  destruct (m s) as [[a|e] s'] eqn:Hm; simpl in *.
  - destruct (Hk a s' eq_refl) as (e2 & Htrace2 & Hran2).
    exists (e1 ++ e2). split.
    + rewrite Htrace2, Htrace1. by rewrite app_assoc.
    + exact (ran_app_ok p1 p2 a _ e1 e2 Hran1 Hran2).
  - exists e1. split; [done|]. exact (ran_app_throw (A:=A) (B:=B) p1 p2 e e1 Hran1).
Qed.

(** [catch (error) { ...; throw error; }] changes nothing. *)
Lemma tryCatch_rethrow {A} (m : M W A) s : tryCatch m (λ error, throw error) s = m s.
Proof. unfold tryCatch, throw. by destruct (m s) as [[a|e] s']. Qed.

Lemma issues_when (b : bool) (m : M W unit) (p : list Call) s :
  issues m p s → issues (when b m) (if b then p else []) s.
Proof. intros Hm. destruct b; simpl; [done|]. apply issues_ret. Qed.

Lemma issues_delay (ms : Z) s : issues (delay ms) [] s.
Proof. exists []. simpl. rewrite app_nil_r. done. Qed.

(** Awaiting the limiter always yields [true] and issues no call. *)
Lemma awaitCanProceed_true (threadId : string) s :
  (awaitCanProceed threadId s).1 = Ok true ∧
  trace (awaitCanProceed threadId s).2 = trace s.
Proof.
  unfold awaitCanProceed.
  by destruct (RateLimit.canProceed _ _ _ _) as [[] r].
Qed.

(** [processThread] issues its three guarded calls in order. *)
Lemma processThread_issues thread (isSecondLatest : bool) s :
  issues (processThread MESSAGE_CONTENT thread isSecondLatest)
         (actions MESSAGE_CONTENT (thread, isSecondLatest)) s.
Proof.
  unfold issues, processThread. rewrite tryCatch_rethrow.
  unfold actions. simpl.
  apply issues_bind.
  { apply (issues_when _ _ [_]), issues_issue. }
  intros _ s1 _. apply issues_bind.
  { apply (issues_when _ _ [_]), issues_issue. }
  intros _ s2 _.
  replace (if locked thread then [] else [SetLocked (id thread) true])
    with (if negb (locked thread) then [SetLocked (id thread) true] else [])
    by (by destruct (locked thread)).
  apply (issues_when _ _ [_]), issues_issue.
Qed.

(** A thread that is the trigger, or was processed before, is passed over. *)
Lemma forThread_skip (newThreadId : string) (P : gset string) (sent : bool) thread s :
  id thread = newThreadId ∨ id thread ∈ P →
  forThread MESSAGE_CONTENT newThreadId (P, sent) thread s = (Ok (P, sent), s).
Proof.
  intros Hskip. unfold forThread.
  destruct Hskip as [Heq|Hin].
  - by rewrite (bool_decide_eq_true_2 _ Heq).
  - rewrite (bool_decide_eq_true_2 _ Hin). by rewrite orb_true_r.
Qed.

(** Any other thread is processed, with the message if none was sent yet. *)
Lemma forThread_process (newThreadId : string) (P : gset string) (sent : bool) thread s :
  ¬ (id thread = newThreadId ∨ id thread ∈ P) →
  issues (forThread MESSAGE_CONTENT newThreadId (P, sent) thread)
         (actions MESSAGE_CONTENT (thread, negb sent)) s ∧
  ∀ vars s', forThread MESSAGE_CONTENT newThreadId (P, sent) thread s = (Ok vars, s') →
             vars = ({[id thread]} ∪ P, true).
Proof.
  intros Hnew.
  assert (id thread ≠ newThreadId) as Hne by tauto.
  assert (id thread ∉ P) as Hnotin by tauto.
  unfold forThread.
  rewrite (bool_decide_eq_false_2 _ Hne), (bool_decide_eq_false_2 _ Hnotin). simpl.
  rewrite andb_true_r.
  destruct (awaitCanProceed_true (id thread) s) as [Hres Htrace].
  split.
  - apply (issues_bind _ _ [] (actions MESSAGE_CONTENT (thread, negb sent))).
    { exists []. rewrite Htrace, Hres, app_nil_r. simpl. done. }
    intros proceed s1 Hrun. rewrite Hrun in Hres. simpl in Hres.
    injection Hres as ->.
    rewrite <- (app_nil_r (actions _ _)).
    apply issues_bind; [apply processThread_issues|].
    intros _ s2 _. apply (issues_bind _ _ [] []); [apply issues_delay|].
    intros _ s3 _. apply issues_ret.
  - intros vars s'. unfold bind.
    destruct (awaitCanProceed (id thread) s) as [r s1]. simpl in Hres. subst r.
    destruct (processThread MESSAGE_CONTENT thread (negb sent) s1) as [[[]|e] s2];
      [|discriminate].
    unfold delay, ret. intros [= <- _]. by destruct sent.
Qed.

(** The loop over the threads issues the calls of the plan, in the plan's order. *)
Lemma forOf_issues (newThreadId : string) threads :
  ∀ (P : gset string) (sent : bool) s,
    issues (forOf (forThread MESSAGE_CONTENT newThreadId) threads (P, sent))
           (flat_map (actions MESSAGE_CONTENT) (planFrom P sent newThreadId threads)) s.
Proof.
  induction threads as [|thread rest IH]; intros P sent s.
  - apply issues_ret.
  - cbn [forOf planFrom].
    destruct (decide (id thread = newThreadId ∨ id thread ∈ P)) as [Hskip|Hnew].
    + rewrite (bool_decide_eq_true_2 _ Hskip).
      unfold issues, bind. rewrite (forThread_skip _ _ _ _ _ Hskip). apply IH.
    + rewrite (bool_decide_eq_false_2 _ Hnew). cbn [flat_map].
      destruct (forThread_process newThreadId P sent thread s Hnew) as [Hthis Hvars].
      apply issues_bind; [exact Hthis|].
      intros vars s' Hrun. rewrite (Hvars _ _ Hrun). apply IH.
Qed.

Lemma forOf_app {A B} (body : B → A → M W B) (l1 l2 : list A) :
  ∀ (b : B) s, forOf body (l1 ++ l2) b s = bind (forOf body l1 b) (forOf body l2) s.
Proof.
  induction l1 as [|x l1 IH]; intros b s; [done|].
  cbn [app forOf]. unfold bind.
  destruct (body b x s) as [[b'|e] s']; [|done].
  rewrite IH. done.
Qed.

(** The batches together are the whole list, in order; the fuel is enough. *)
Lemma batches_forOf (newThreadId : string) threads (fuel : nat) :
  ∀ (i : nat) (vars : gset string * bool) s,
    (length threads - i ≤ fuel)%nat →
    batches MESSAGE_CONTENT fuel i threads newThreadId vars s
    = forOf (forThread MESSAGE_CONTENT newThreadId) (drop i threads) vars s.
Proof.
  induction fuel as [|fuel IH]; intros i vars s Hfuel.
  - simpl. rewrite bool_decide_eq_false_2 by lia.
    rewrite drop_ge by lia. done.
  - simpl. case_bool_decide as Hi.
    + unfold slice. replace (i + BATCH_SIZE - i)%nat with BATCH_SIZE by lia.
      rewrite <- (take_drop BATCH_SIZE (drop i threads)) at 2.
      rewrite forOf_app. unfold bind.
      destruct (forOf _ (take BATCH_SIZE (drop i threads)) vars s) as [[vars'|e] s']; [|done].
      rewrite drop_drop. apply IH. unfold BATCH_SIZE. lia.
    + rewrite drop_ge by lia. done.
Qed.

(** The batch executor refines the action plan. *)
Lemma processThreadsBatch_issues threads (newThreadId : string) s :
  issues (processThreadsBatch MESSAGE_CONTENT threads newThreadId)
         (flat_map (actions MESSAGE_CONTENT) (actionPlan threads newThreadId)) s.
Proof.
  unfold processThreadsBatch.
  rewrite <- (app_nil_r (flat_map _ _)).
  apply issues_bind; [|intros; apply issues_ret].
  unfold issues. rewrite batches_forOf by lia. rewrite drop_0.
  apply forOf_issues.
Qed.

End ProgramFacts.

(** ** The sort *)

Lemma insertSorted_perm {A} (compare : A → A → Z) (x : A) (l : list A) :
  insertSorted compare x l ≡ₚ x :: l.
Proof.
  induction l as [|y l IH]; simpl; [done|].
  case_bool_decide; [done|]. rewrite IH. apply Permutation_swap.
Qed.

Lemma sort_perm {A} (compare : A → A → Z) (l : list A) : sort compare l ≡ₚ l.
Proof.
  induction l as [|x l IH]; simpl; [done|].
  rewrite insertSorted_perm. by rewrite IH.
Qed.

Lemma insertSorted_sorted (x : Thread) (l : list Thread) :
  StronglySorted newerOrSame l → StronglySorted newerOrSame (insertSorted newestFirst x l).
Proof.
  induction l as [|y l IH]; intros Hsorted; simpl.
  - by repeat constructor.
  - apply StronglySorted_inv in Hsorted as [Hl Hy].
    unfold newestFirst at 1. case_bool_decide as Hcmp.
    + constructor; [by constructor|].
      constructor; [unfold newerOrSame; lia|].
      eapply Forall_impl; [exact Hy|]. unfold newerOrSame. intros z Hz. lia.
    + constructor; [by apply IH|].
      rewrite insertSorted_perm. constructor; [unfold newerOrSame; lia | done].
Qed.

Lemma sort_sorted (l : list Thread) : StronglySorted newerOrSame (sort newestFirst l).
Proof.
  induction l as [|x l IH]; simpl; [constructor|]. by apply insertSorted_sorted.
Qed.

(** The sort is stable: threads created at the same instant keep their order. *)
Lemma insertSorted_stable (at_ : Z) (x : Thread) (l : list Thread) :
  filter (λ t, createdAt t = at_) (insertSorted newestFirst x l)
  = filter (λ t, createdAt t = at_) (x :: l).
Proof.
  induction l as [|y l IH]; simpl; [done|].
  unfold newestFirst at 1. case_bool_decide as Hcmp; [done|].
  rewrite filter_cons, IH. rewrite !filter_cons.
  destruct (decide (createdAt y = at_)), (decide (createdAt x = at_)); (done || lia).
Qed.

Lemma sort_stable (at_ : Z) (l : list Thread) :
  filter (λ t, createdAt t = at_) (sort newestFirst l) = filter (λ t, createdAt t = at_) l.
Proof.
  induction l as [|x l IH]; simpl; [done|].
  rewrite insertSorted_stable, !filter_cons, IH. done.
Qed.

Lemma elem_of_unlockedThreads (allThreads : list Thread) (t : Thread) :
  t ∈ unlockedThreads allThreads ↔ t ∈ allThreads ∧ locked t = false.
Proof.
  unfold unlockedThreads. rewrite sort_perm, list_elem_of_filter. tauto.
Qed.

Lemma length_unlockedThreads (allThreads : list Thread) :
  length (unlockedThreads allThreads) = length (filter (λ t, locked t = false) allThreads).
Proof. unfold unlockedThreads. by rewrite sort_perm. Qed.

(** The second latest of a sorted list is the newest thread that is not the trigger. *)
Lemma secondLatest_newest (l : list Thread) (newThreadId : string) (r : Thread) :
  secondLatest (sort newestFirst l) newThreadId = Some r →
  r ∈ l ∧ id r ≠ newThreadId ∧
  ∀ u, u ∈ l → id u ≠ newThreadId → createdAt u ≤ createdAt r.
Proof.
  unfold secondLatest. intros Hhead.
  assert (r ∈ filter (λ t, id t ≠ newThreadId) (sort newestFirst l)) as Hr.
  { destruct (filter _ _) as [|r' f]; [done|]. injection Hhead as ->. left. }
  apply list_elem_of_filter in Hr as [Hne Hin].
  split; [by rewrite <- (sort_perm newestFirst l)|]. split; [done|].
  intros u Hu Hune.
  apply head_filter_Some in Hhead as (l1 & l2 & Hsplit & Hl1).
  pose proof (sort_sorted l) as Hsorted. rewrite Hsplit in Hsorted.
  apply StronglySorted_app_1_r in Hsorted.
  apply StronglySorted_inv in Hsorted as [_ Hafter].
  rewrite <- (sort_perm newestFirst l), Hsplit in Hu.
  apply elem_of_app in Hu as [Hu|Hu].
  - rewrite Forall_forall in Hl1. destruct (Hl1 u Hu). done.
  - apply elem_of_cons in Hu as [->|Hu]; [lia|].
    rewrite Forall_forall in Hafter. apply (Hafter u Hu).
Qed.

Lemma secondLatest_exists (l : list Thread) (newThreadId : string) (u : Thread) :
  u ∈ l → id u ≠ newThreadId → is_Some (secondLatest l newThreadId).
Proof.
  intros Hu Hne. unfold secondLatest.
  assert (u ∈ filter (λ t, id t ≠ newThreadId) l) as Hin
    by (by apply list_elem_of_filter).
  destruct (filter _ l) as [|r f]; [by apply elem_of_nil in Hin | by eexists].
Qed.

(** ** The action plan *)

Section PlanFacts.

Variable MESSAGE_CONTENT : string.
Variable newThreadId : string.

Lemma actions_target (p : Thread * bool) (c : Call) :
  c ∈ actions MESSAGE_CONTENT p → target c = id p.1.
Proof.
  unfold actions. destruct (archived p.1), p.2, (locked p.1); simpl;
    rewrite ?elem_of_cons, ?elem_of_nil; intros Hc;
    repeat destruct Hc as [->|Hc]; done.
Qed.

Lemma recipients_actions (p : Thread * bool) :
  recipients (actions MESSAGE_CONTENT p) = if p.2 then [id p.1] else [].
Proof. unfold actions. by destruct (archived p.1), p.2, (locked p.1). Qed.

Lemma recipients_app (c1 c2 : list Call) :
  recipients (c1 ++ c2) = recipients c1 ++ recipients c2.
Proof. apply omap_app. Qed.

Lemma recipients_prefix (c1 c2 : list Call) :
  c1 `prefix_of` c2 → recipients c1 `prefix_of` recipients c2.
Proof. intros [k ->]. rewrite recipients_app. by eexists. Qed.

(** Whatever is planned is a thread of the list, not the trigger, not planned before. *)
Lemma planFrom_elem (threads : list Thread) :
  ∀ (P : gset string) (sent : bool) (p : Thread * bool),
    p ∈ planFrom P sent newThreadId threads →
    p.1 ∈ threads ∧ id p.1 ≠ newThreadId ∧ id p.1 ∉ P.
Proof.
  induction threads as [|t rest IH]; intros P sent p; simpl.
  - by intros ?%elem_of_nil.
  - case_bool_decide as Hskip.
    + intros Hp. destruct (IH _ _ _ Hp) as (? & ? & ?).
      split; [by right | done].
    + intros [->|Hp]%elem_of_cons.
      * simpl. split; [left|]. tauto.
      * destruct (IH _ _ _ Hp) as (Hin & Hne & Hnotin).
        split; [by right|]. split; [done|].
        intros HP. apply Hnotin, elem_of_union. by right.
Qed.

(** Every thread that is not the trigger has its identifier in the plan. *)
Lemma planFrom_covers (threads : list Thread) :
  ∀ (P : gset string) (sent : bool) (t : Thread),
    t ∈ threads → id t ≠ newThreadId → id t ∉ P →
    ∃ p, p ∈ planFrom P sent newThreadId threads ∧ id p.1 = id t.
Proof.
  induction threads as [|u rest IH]; intros P sent t Ht Hne HP.
  - by apply elem_of_nil in Ht.
  - simpl. case_bool_decide as Hskip.
    + apply elem_of_cons in Ht as [->|Ht]; [tauto|]. by apply IH.
    + destruct (decide (id u = id t)) as [Heq|Hdiff].
      * exists (u, negb sent). split; [left | done].
      * apply elem_of_cons in Ht as [->|Ht]; [done|].
        destruct (IH ({[id u]} ∪ P) true t Ht Hne) as (p & Hp & Hid).
        { rewrite elem_of_union, elem_of_singleton. intros [Heq|Hin]; [congruence|done]. }
        exists p. split; [by right | done].
Qed.

(** Once the message is planned, no later thread is selected for it. *)
Lemma planFrom_sent_recipients (threads : list Thread) :
  ∀ P : gset string,
    recipients (flat_map (actions MESSAGE_CONTENT) (planFrom P true newThreadId threads)) = [].
Proof.
  induction threads as [|t rest IH]; intros P; simpl; [done|].
  case_bool_decide; [apply IH|].
  simpl. rewrite recipients_app, recipients_actions, IH. done.
Qed.

(** The plan holds exactly one send-message, for the second latest. *)
Lemma actionPlan_recipients (threads : list Thread) :
  recipients (flat_map (actions MESSAGE_CONTENT) (actionPlan threads newThreadId))
  = match secondLatest threads newThreadId with
    | Some r => [id r]
    | None => []
    end.
Proof.
  unfold actionPlan, secondLatest.
  induction threads as [|t rest IH]; simpl; [done|].
  rewrite filter_cons.
  destruct (decide (id t ≠ newThreadId)) as [Hne|Heq].
  - rewrite bool_decide_eq_false_2
      by (intros [Heq|Hin]; [done | by apply not_elem_of_empty in Hin]).
    simpl.
    rewrite recipients_app, recipients_actions, planFrom_sent_recipients. done.
  - rewrite bool_decide_eq_true_2 by (left; by destruct (decide (id t = newThreadId))).
    apply IH.
Qed.

Lemma actionPlan_targets (threads : list Thread) (c : Call) :
  c ∈ flat_map (actions MESSAGE_CONTENT) (actionPlan threads newThreadId) →
  target c ≠ newThreadId.
Proof.
  intros Hc. apply list_elem_of_In, in_flat_map in Hc as (p & Hp & Hc).
  apply list_elem_of_In in Hp, Hc.
  rewrite (actions_target p c Hc).
  by destruct (planFrom_elem _ _ _ _ Hp) as (_ & ? & _).
Qed.

(** In a list of unlocked threads, every thread but the trigger is to be locked. *)
Lemma actionPlan_locks (threads : list Thread) (t : Thread) :
  (∀ u, u ∈ threads → locked u = false) →
  t ∈ threads → id t ≠ newThreadId →
  SetLocked (id t) true ∈ flat_map (actions MESSAGE_CONTENT) (actionPlan threads newThreadId).
Proof.
  intros Hunlocked Ht Hne.
  destruct (planFrom_covers threads ∅ false t Ht Hne) as (p & Hp & Hid);
    [apply not_elem_of_empty|].
  apply list_elem_of_In, in_flat_map. exists p.
  split; [by apply list_elem_of_In|]. apply list_elem_of_In.
  destruct (planFrom_elem _ _ _ _ Hp) as (Hin & _ & _).
  unfold actions. rewrite (Hunlocked _ Hin), <- Hid.
  rewrite !elem_of_app. right. right. left.
Qed.

(** A list holding the trigger only has an empty plan. *)
Lemma actionPlan_trigger_only (threads : list Thread) :
  (∀ t, t ∈ threads → id t = newThreadId) → actionPlan threads newThreadId = [].
Proof.
  unfold actionPlan. induction threads as [|t rest IH]; intros Hall; simpl; [done|].
  rewrite bool_decide_eq_true_2 by (left; apply Hall; left).
  apply IH. intros u Hu. apply Hall. by right.
Qed.

End PlanFacts.

(** ** The reconciliation and the handler *)

Lemma two_elements {A} (l : list A) (x y : A) :
  x ∈ l → y ∈ l → x ≠ y → (2 ≤ length l)%nat.
Proof.
  intros Hx Hy Hne. destruct l as [|a [|b l]]; simpl; [| |lia].
  - by apply elem_of_nil in Hx.
  - apply list_elem_of_singleton in Hx, Hy. congruence.
Qed.

Lemma prefix_singleton {A} (l : list A) (x : A) :
  l `prefix_of` [x] → l = [] ∨ l = [x].
Proof.
  intros [k Hk]. destruct l as [|a [|b l]]; [by left | | done].
  right. by injection Hk as ->.
Qed.

Lemma recipients_elem (calls : list Call) (i : string) :
  i ∈ recipients calls → ∃ content, Send i content ∈ calls.
Proof.
  unfold recipients. rewrite list_elem_of_omap. intros (c & Hc & Hsend).
  destruct c; try done. injection Hsend as ->. by eexists.
Qed.

Lemma appended_refl {W} (P : Event → Prop) (s : State W) : appended P s s.
Proof. exists []. by rewrite app_nil_r. Qed.

Lemma appended_trans {W} (P : Event → Prop) (s1 s2 s3 : State W) :
  appended P s1 s2 → appended P s2 s3 → appended P s1 s3.
Proof.
  intros (e1 & H1 & HP1) (e2 & H2 & HP2). exists (e1 ++ e2).
  split; [by rewrite H2, H1, app_assoc | by apply Forall_app].
Qed.

Lemma appended_same_trace {W} (P : Event → Prop) (s s' : State W) :
  trace s' = trace s → appended P s s'.
Proof. intros Heq. exists []. by rewrite app_nil_r. Qed.

(** The retry executor keeps whatever every attempt and every wait keep. *)
Lemma withRetry_invariant {St A} (R : St → St → Prop)
    (wait : Z → St → St) (operation : St → Result A * St) (maxRetries : nat) :
  (∀ s, R s s) → (∀ s1 s2 s3, R s1 s2 → R s2 s3 → R s1 s3) →
  (∀ ms s, R s (wait ms s)) → (∀ s, R s (operation s).2) →
  ∀ s, R s (withRetry wait operation maxRetries s).2.
Proof.
  intros Hrefl Htrans Hwait Hop. unfold withRetry.
  generalize 1%nat (@None JsError).
  induction maxRetries as [|remaining IH] at 2; intros attempt lastError s; simpl.
  - apply Hrefl.
  - pose proof (Hop s) as Hs.
    destruct (operation s) as [[v|e] s']; simpl in *; [done|].
    case_bool_decide; simpl; [done|].
    eapply Htrans; [exact Hs|]. eapply Htrans; [apply Hwait|]. apply IH.
Qed.

(** Threads are told apart by their identifiers: in a list without
    duplicate identifiers, two unlocked threads give an unlocked thread
    other than the trigger. *)
Lemma other_unlocked_thread (allThreads : list Thread) (newThreadId : string) :
  NoDup (id <$> allThreads) →
  (2 ≤ length (filter (λ t, locked t = false) allThreads))%nat →
  ∃ u, u ∈ allThreads ∧ locked u = false ∧ id u ≠ newThreadId.
Proof.
  intros Hnodup Htwo.
  assert (NoDup (id <$> filter (λ t, locked t = false) allThreads)) as Hunlocked.
  { eapply sublist_NoDup; [exact Hnodup|]. apply fmap_sublist, sublist_filter. }
  destruct (filter (λ t, locked t = false) allThreads) as [|a [|b rest]] eqn:Hfilter;
    simpl in Htwo; [lia | lia |].
  assert (a ∈ filter (λ t, locked t = false) allThreads) as Ha by (rewrite Hfilter; left).
  assert (b ∈ filter (λ t, locked t = false) allThreads) as Hb
    by (rewrite Hfilter; right; left).
  apply list_elem_of_filter in Ha as [Hau Ha], Hb as [Hbu Hb].
  rewrite !fmap_cons in Hunlocked.
  apply NoDup_cons in Hunlocked as [Hab _].
  destruct (decide (id a = newThreadId)) as [Heq|Hne].
  - exists b. split; [done|]. split; [done|].
    intros Hbid. apply Hab. rewrite Heq, <- Hbid. left.
  - by exists a.
Qed.

Section Claims.

Context {W : Type} `{Platform W}.
Variable MESSAGE_CONTENT : string.
Variable CHANNEL_ID : string.

Implicit Types (s : State W) (thread : Thread) (allThreads : list Thread).

Lemma issues_appended {A} (m : M W A) (planned : list Call) (P : Event → Prop) s :
  issues m planned s → (∀ c r, c ∈ planned → P (Called c r)) → appended P s (m s).2.
Proof.
  intros (evs & Htrace & Hran) HP. exists evs. split; [done|].
  apply ran_prefix in Hran as [k Hk].
  apply Forall_forall. intros [c r] Hev. apply HP.
  rewrite Hk. apply elem_of_app. left.
  apply list_elem_of_fmap. by exists (Called c r).
Qed.

(** One reconciliation issues the calls of its plan. *)
Lemma reconcile_issues allThreads thread s :
  issues (reconcile MESSAGE_CONTENT allThreads thread)
         (flat_map (actions MESSAGE_CONTENT) (reconciliationPlan allThreads thread)) s.
Proof.
  unfold reconcile, reconciliationPlan. case_bool_decide.
  - apply processThreadsBatch_issues.
  - apply issues_ret.
Qed.

Lemma reconciliationPlan_targets allThreads thread (c : Call) :
  c ∈ flat_map (actions MESSAGE_CONTENT) (reconciliationPlan allThreads thread) →
  target c ≠ id thread.
Proof.
  unfold reconciliationPlan. case_bool_decide.
  - apply actionPlan_targets.
  - by intros ?%elem_of_nil.
Qed.

Lemma external_trace {A} (f : W → Result A * W) s : trace (external f s).2 = trace s.
Proof. unfold external. by destruct (f (world s)). Qed.

Lemma getThreadsWithCache_trace (channel : Channel) s :
  trace (getThreadsWithCache channel s).2 = trace s.
Proof.
  unfold getThreadsWithCache.
  destruct (ThreadCache.get _ _ _) as [[ths|] c]; [done|].
  destruct (fetchActive channel (world s)) as [[a|e1] w1];
    destruct (fetchArchived channel w1) as [[b|e2] w2]; done.
Qed.

(** On a cache hit the snapshot is used as it is; nothing is fetched. *)
Lemma getThreadsWithCache_hit (channel : Channel) (snapshot : list Thread) s :
  (ThreadCache.get (clock (world s)) (channel_id channel) (threadCache s)).1 = Some snapshot →
  getThreadsWithCache channel s
  = (Ok snapshot,
     mkState (world s)
             (ThreadCache.get (clock (world s)) (channel_id channel) (threadCache s)).2
             (rateLimit s) (trace s)).
Proof.
  unfold getThreadsWithCache.
  destruct (ThreadCache.get _ _ _) as [cached c]. simpl. by intros ->.
Qed.

Lemma operation_spares thread s :
  appended (spares (id thread)) s (operation MESSAGE_CONTENT CHANNEL_ID thread s).2.
Proof.
  unfold operation, bind.
  pose proof (external_trace (fetchChannel CHANNEL_ID) s) as Hfetch.
  destruct (external (fetchChannel CHANNEL_ID) s) as [[channel|e] s1]; simpl in Hfetch;
    [|by apply appended_same_trace].
  pose proof (getThreadsWithCache_trace channel s1) as Hget.
  destruct (getThreadsWithCache channel s1) as [[allThreads|e] s2]; simpl in Hget;
    [|apply appended_same_trace; simpl; congruence].
  eapply appended_trans; [apply (appended_same_trace _ s s2); congruence|].
  eapply issues_appended; [apply reconcile_issues|].
  intros c r Hc. by apply reconciliationPlan_targets in Hc.
Qed.

Lemma forOf_all_skipped (newThreadId : string) (threads : list Thread) :
  (∀ t, t ∈ threads → id t = newThreadId) →
  ∀ (vars : gset string * bool) s,
    forOf (forThread MESSAGE_CONTENT newThreadId) threads vars s = (Ok vars, s).
Proof.
  induction threads as [|t rest IH]; intros Hall [P sent] s; [done|].
  cbn [forOf]. unfold bind.
  rewrite forThread_skip by (left; apply Hall; left).
  apply IH. intros u Hu. apply Hall. by right.
Qed.

Lemma succeeded_events (evs : list Event) :
  Forall succeeded evs → evs = (λ c, Called c (Ok tt)) <$> (call_of <$> evs).
Proof.
  induction 1 as [|[c r] evs Hev _ IH]; [done|].
  simpl in Hev. subst r. rewrite !fmap_cons. simpl. by f_equal.
Qed.

Lemma succeeded_elem (evs : list Event) (c : Call) :
  Forall succeeded evs → c ∈ call_of <$> evs → Called c (Ok tt) ∈ evs.
Proof.
  intros Hok Hc. rewrite (succeeded_events evs Hok).
  apply list_elem_of_fmap. by exists c.
Qed.

Lemma actions_content (plan : list (Thread * bool)) (i content : string) :
  Send i content ∈ flat_map (actions MESSAGE_CONTENT) plan → content = MESSAGE_CONTENT.
Proof.
  intros Hc. apply list_elem_of_In, in_flat_map in Hc as (p & _ & Hc).
  apply list_elem_of_In in Hc. unfold actions in Hc.
  destruct (archived p.1), p.2, (locked p.1); simpl in Hc;
    rewrite ?elem_of_cons, ?elem_of_nil in Hc;
    repeat destruct Hc as [Hc|Hc]; first [done | congruence].
Qed.

(** C1. For every thread list in which the trigger is unlocked and some
    other unlocked thread exists (at least two unlocked threads, the
    trigger among them), a reconciliation run that returns issues exactly
    one send-message call; its recipient [r] is the first thread of the
    sorted unlocked list that is not the trigger, an unlocked thread of
    the list whose creation time no other unlocked non-trigger thread
    exceeds. A run cut short by a failing platform call never issues more
    than this one message and never to another thread. *)
Theorem C1_one_message_to_second_latest allThreads thread s :
  (∃ t, t ∈ allThreads ∧ locked t = false ∧ id t = id thread) →
  (∃ u, u ∈ allThreads ∧ locked u = false ∧ id u ≠ id thread) →
  ∃ (r : Thread) (evs : list Event),
    secondLatest (unlockedThreads allThreads) (id thread) = Some r ∧
    r ∈ allThreads ∧ locked r = false ∧ id r ≠ id thread ∧
    (∀ u, u ∈ allThreads → locked u = false → id u ≠ id thread →
          createdAt u ≤ createdAt r) ∧
    trace (reconcile MESSAGE_CONTENT allThreads thread s).2 = trace s ++ evs ∧
    (recipients (call_of <$> evs) = [] ∨ recipients (call_of <$> evs) = [id r]) ∧
    ((reconcile MESSAGE_CONTENT allThreads thread s).1 = Ok tt →
     recipients (call_of <$> evs) = [id r]).
Proof.
  intros (t & Ht & Htu & Htid) (u & Hu & Huu & Huid).
  assert (t ∈ unlockedThreads allThreads) as Ht' by (by apply elem_of_unlockedThreads).
  assert (u ∈ unlockedThreads allThreads) as Hu' by (by apply elem_of_unlockedThreads).
  assert (2 ≤ length (unlockedThreads allThreads))%nat as Htwo.
  { apply (two_elements _ t u); [done | done | congruence]. }
  destruct (secondLatest_exists _ (id thread) u Hu' Huid) as [r Hr].
  destruct (secondLatest_newest _ _ _ Hr) as (Hrin & Hrid & Hnewest).
  apply list_elem_of_filter in Hrin as [Hrunlocked Hrall].
  destruct (reconcile_issues allThreads thread s) as (evs & Htrace & Hran).
  assert (recipients (flat_map (actions MESSAGE_CONTENT)
                        (reconciliationPlan allThreads thread)) = [id r]) as Hplan.
  { unfold reconciliationPlan. rewrite bool_decide_eq_true_2 by done.
    by rewrite actionPlan_recipients, Hr. }
  exists r, evs. repeat split; try done.
  - intros v Hv Hvu Hvid. apply Hnewest; [|done]. by apply list_elem_of_filter.
  - apply prefix_singleton. rewrite <- Hplan.
    apply recipients_prefix. by eapply ran_prefix.
  - intros Hok. rewrite Hok in Hran. destruct Hran as [-> _]. done.
Qed.

(** C6. The trigger's identifier never appears in the action plan, and
    no call of a reconciliation run, nor of the whole handler with its
    retries, is on the triggering thread, whatever the thread list and
    whatever the platform does. *)
Theorem C6_trigger_never_touched thread :
  (∀ allThreads,
     Forall (λ c, target c ≠ id thread)
            (flat_map (actions MESSAGE_CONTENT) (reconciliationPlan allThreads thread))) ∧
  (∀ allThreads s,
     appended (spares (id thread)) s (reconcile MESSAGE_CONTENT allThreads thread s).2) ∧
  (∀ s,
     appended (spares (id thread)) s (onThreadCreate MESSAGE_CONTENT CHANNEL_ID thread s).2).
Proof.
  split; [|split].
  - intros allThreads. apply Forall_forall. intros c Hc.
    by apply reconciliationPlan_targets in Hc.
  - intros allThreads s. eapply issues_appended; [apply reconcile_issues|].
    intros c r Hc. by apply reconciliationPlan_targets in Hc.
  - intros s. unfold onThreadCreate. case_bool_decide; [apply appended_refl|].
    unfold tryCatch.
    pose proof (withRetry_invariant (appended (spares (id thread))) sleepState
                  (operation MESSAGE_CONTENT CHANNEL_ID thread) RETRY_MAX_ATTEMPTS
                  (appended_refl _) (appended_trans _)
                  (λ ms s, appended_same_trace _ s (sleepState ms s) eq_refl)
                  (operation_spares thread) s) as Hretry.
    by destruct (withRetry _ _ _ s) as [[[]|e] s'].
Qed.

(** C7. On a snapshot in which every thread but the trigger is already
    locked, the plan is empty and a reconciliation run returns with the
    state as it was: no unarchive, send-message or lock call is issued
    (the rate limiter is not even consulted). *)
Theorem C7_all_locked_nothing_issued allThreads thread s :
  (∀ t, t ∈ allThreads → id t ≠ id thread → locked t = true) →
  reconciliationPlan allThreads thread = [] ∧
  reconcile MESSAGE_CONTENT allThreads thread s = (Ok tt, s).
Proof.
  intros Hlocked.
  assert (∀ t, t ∈ unlockedThreads allThreads → id t = id thread) as Honly.
  { intros t [Ht Hunlocked]%elem_of_unlockedThreads.
    destruct (decide (id t = id thread)) as [|Hne]; [done|].
    rewrite (Hlocked t Ht Hne) in Hunlocked. done. }
  split.
  - unfold reconciliationPlan. case_bool_decide; [|done].
    by apply actionPlan_trigger_only.
  - unfold reconcile. case_bool_decide; [|done].
    unfold processThreadsBatch, bind.
    rewrite batches_forOf by lia. rewrite drop_0.
    by rewrite forOf_all_skipped.
Qed.

(** A run that issued something towards a plan starting with [c] issued
    [c] first. *)
Lemma first_planned_first_issued (c : Call) (rest : list Call) (evs : list Event) :
  evs ≠ [] → (call_of <$> evs) `prefix_of` (c :: rest) →
  ∃ r evs', evs = Called c r :: evs'.
Proof.
  intros Hevs [tl Hcalls]. destruct evs as [|[c' r] evs']; [done|].
  simpl in Hcalls. injection Hcalls as -> _. by exists r, evs'.
Qed.

(** C8. [processThread] issues, as separate calls and in this order, the
    unarchive if the thread is archived, the message if the thread is
    selected, the lock if the thread is unlocked. Every run issues a
    prefix of that sequence, and the first call of the sequence in any
    case. A run that returns has issued the whole sequence, every call
    with success. A run that throws has stopped at a call that failed:
    that call is the last one issued, the calls before it succeeded, and
    its error is the error thrown. An archived, unlocked second-latest
    thread so receives unarchive, then the message, then the lock. The
    batch executor issues these per-thread sequences in the same way, one
    thread after the other. *)
Theorem C8_fixed_order thread (isSecondLatest : bool) s :
  let planned :=
    (if archived thread then [SetArchived (id thread) false] else []) ++
    (if isSecondLatest then [Send (id thread) MESSAGE_CONTENT] else []) ++
    (if locked thread then [] else [SetLocked (id thread) true]) in
  (∃ evs,
     trace (processThread MESSAGE_CONTENT thread isSecondLatest s).2 = trace s ++ evs ∧
     (call_of <$> evs) `prefix_of` planned ∧
     (∀ c rest, planned = c :: rest → ∃ r evs', evs = Called c r :: evs') ∧
     match (processThread MESSAGE_CONTENT thread isSecondLatest s).1 with
     | Ok _ => call_of <$> evs = planned ∧ Forall succeeded evs
     | Throw e => ∃ pre c, evs = pre ++ [Called c (Throw e)] ∧ Forall succeeded pre
     end) ∧
  (archived thread = true → isSecondLatest = true → locked thread = false →
   (processThread MESSAGE_CONTENT thread isSecondLatest s).1 = Ok tt →
   trace (processThread MESSAGE_CONTENT thread isSecondLatest s).2
   = trace s ++ [Called (SetArchived (id thread) false) (Ok tt);
                 Called (Send (id thread) MESSAGE_CONTENT) (Ok tt);
                 Called (SetLocked (id thread) true) (Ok tt)]) ∧
  (∀ threads newThreadId, ∃ evs,
     trace (processThreadsBatch MESSAGE_CONTENT threads newThreadId s).2 = trace s ++ evs ∧
     (call_of <$> evs)
       `prefix_of` flat_map (actions MESSAGE_CONTENT) (actionPlan threads newThreadId) ∧
     match (processThreadsBatch MESSAGE_CONTENT threads newThreadId s).1 with
     | Ok _ =>
         call_of <$> evs = flat_map (actions MESSAGE_CONTENT) (actionPlan threads newThreadId) ∧
         Forall succeeded evs
     | Throw e => ∃ pre c, evs = pre ++ [Called c (Throw e)] ∧ Forall succeeded pre
     end).
Proof.
  intros planned.
  destruct (processThread_issues MESSAGE_CONTENT thread isSecondLatest s)
    as (evs & Htrace & Hran).
  change (actions MESSAGE_CONTENT (thread, isSecondLatest)) with planned in Hran.
  split; [|split].
  - exists evs. split; [done|]. split; [by eapply ran_prefix|]. split.
    + intros c rest Hplanned.
      apply (first_planned_first_issued c rest).
      * destruct (processThread MESSAGE_CONTENT thread isSecondLatest s).1 as [v|e].
        -- destruct Hran as [Hcalls _]. rewrite Hplanned in Hcalls. by destruct evs.
        -- destruct Hran as (pre & c' & -> & _ & _). by destruct pre.
      * rewrite <- Hplanned. by eapply ran_prefix.
    + destruct (processThread MESSAGE_CONTENT thread isSecondLatest s).1 as [v|e]; [done|].
      destruct Hran as (pre & c & Hevs & Hpre & _). by exists pre, c.
  - intros Harchived Hselected Hunlocked Hok.
    rewrite Hok in Hran. destruct Hran as [Hcalls Hsucc].
    rewrite Htrace, (succeeded_events evs Hsucc), Hcalls.
    unfold planned. by rewrite Harchived, Hselected, Hunlocked.
  - intros threads newThreadId.
    destruct (processThreadsBatch_issues MESSAGE_CONTENT threads newThreadId s)
      as (evs' & Htrace' & Hran').
    exists evs'. split; [done|]. split; [by eapply ran_prefix|].
    destruct (processThreadsBatch MESSAGE_CONTENT threads newThreadId s).1 as [v|e]; [done|].
    destruct Hran' as (pre & c & Hevs & Hpre & _). by exists pre, c.
Qed.

(** With the channel fetched and the cache hit, the operation is the
    reconciliation of the cached snapshot. *)
Lemma operation_cached thread (channel : Channel) (w1 : W) (snapshot : list Thread) s :
  fetchChannel CHANNEL_ID (world s) = (Ok channel, w1) →
  (ThreadCache.get (clock w1) (channel_id channel) (threadCache s)).1 = Some snapshot →
  operation MESSAGE_CONTENT CHANNEL_ID thread s
  = reconcile MESSAGE_CONTENT snapshot thread
      (mkState w1 (ThreadCache.get (clock w1) (channel_id channel) (threadCache s)).2
               (rateLimit s) (trace s)).
Proof.
  intros Hfetch Hhit. unfold operation, bind, external. rewrite Hfetch.
  by rewrite (getThreadsWithCache_hit channel snapshot).
Qed.

(** When the first attempt returns, the handler is that one run of the operation. *)
Lemma onThreadCreate_first_attempt thread s :
  parentId thread = CHANNEL_ID →
  (operation MESSAGE_CONTENT CHANNEL_ID thread s).1 = Ok tt →
  onThreadCreate MESSAGE_CONTENT CHANNEL_ID thread s
  = operation MESSAGE_CONTENT CHANNEL_ID thread s.
Proof.
  intros Hparent Hok. unfold onThreadCreate.
  rewrite bool_decide_eq_false_2 by (intros Hne; by apply Hne).
  unfold tryCatch, withRetry. simpl.
  destruct (operation MESSAGE_CONTENT CHANNEL_ID thread s) as [[[]|e] s']; done.
Qed.

(** C9. When the channel is fetched, the cache answers with a fresh
    snapshot that does not hold the trigger, the snapshot has at least two
    unlocked threads and the operation returns: every unlocked thread of
    the snapshot was locked, the newest of them included, and that newest
    thread is the one that received the message. *)
Theorem C9_stale_snapshot thread (channel : Channel) (w1 : W) (snapshot : list Thread) s :
  fetchChannel CHANNEL_ID (world s) = (Ok channel, w1) →
  (ThreadCache.get (clock w1) (channel_id channel) (threadCache s)).1 = Some snapshot →
  id thread ∉ id <$> snapshot →
  (2 ≤ length (filter (λ t, locked t = false) snapshot))%nat →
  (operation MESSAGE_CONTENT CHANNEL_ID thread s).1 = Ok tt →
  ∃ (newest : Thread) (evs : list Event),
    trace (operation MESSAGE_CONTENT CHANNEL_ID thread s).2 = trace s ++ evs ∧
    (∀ t, t ∈ snapshot → locked t = false →
          Called (SetLocked (id t) true) (Ok tt) ∈ evs) ∧
    head (unlockedThreads snapshot) = Some newest ∧
    newest ∈ snapshot ∧ locked newest = false ∧
    (∀ t, t ∈ snapshot → locked t = false → createdAt t ≤ createdAt newest) ∧
    Called (Send (id newest) MESSAGE_CONTENT) (Ok tt) ∈ evs ∧
    Called (SetLocked (id newest) true) (Ok tt) ∈ evs ∧
    recipients (call_of <$> evs) = [id newest].
Proof.
  intros Hfetch Hhit Habsent Htwo Hok.
  rewrite (operation_cached thread channel w1 snapshot s Hfetch Hhit) in *.
  set (s2 := mkState w1 _ (rateLimit s) (trace s)) in *.
  assert (∀ t, t ∈ snapshot → id t ≠ id thread) as Hother.
  { intros t Ht Heq. apply Habsent. rewrite <- Heq.
    apply list_elem_of_fmap. by exists t. }
  destruct (reconcile_issues snapshot thread s2) as (evs & Htrace & Hran).
  rewrite Hok in Hran. destruct Hran as [Hcalls Hsucc].
  unfold reconciliationPlan in Hcalls.
  rewrite bool_decide_eq_true_2 in Hcalls by (by rewrite length_unlockedThreads).
  destruct (unlockedThreads snapshot) as [|newest others] eqn:Hsorted.
  { rewrite <- length_unlockedThreads, Hsorted in Htwo. simpl in Htwo. lia. }
  assert (newest ∈ unlockedThreads snapshot) as Hnewest by (rewrite Hsorted; left).
  apply elem_of_unlockedThreads in Hnewest as [Hin Hunlocked].
  assert (secondLatest (unlockedThreads snapshot) (id thread) = Some newest) as Hsecond.
  { unfold secondLatest. rewrite Hsorted, filter_cons.
    by destruct (decide (id newest ≠ id thread)) as [|[]]; [|apply Hother]. }
  destruct (secondLatest_newest _ _ _ Hsecond) as (_ & _ & Hmax).
  assert (∀ t, t ∈ snapshot → locked t = false →
               Called (SetLocked (id t) true) (Ok tt) ∈ evs) as Hlocks.
  { intros t Ht Htu. apply succeeded_elem; [done|]. rewrite Hcalls, <- Hsorted.
    apply actionPlan_locks.
    - intros u Hu. by apply elem_of_unlockedThreads in Hu as [_ ?].
    - by apply elem_of_unlockedThreads.
    - by apply Hother. }
  assert (recipients (call_of <$> evs) = [id newest]) as Hrecipients.
  { by rewrite Hcalls, <- Hsorted, actionPlan_recipients, Hsecond. }
  exists newest, evs. repeat split; try done.
  - intros t Ht Htu. apply Hmax; [by apply list_elem_of_filter | by apply Hother].
  - assert (id newest ∈ recipients (call_of <$> evs)) as Hsent
      by (rewrite Hrecipients; left).
    apply recipients_elem in Hsent as [content Hsend].
    pose proof Hsend as Hcontent. rewrite Hcalls in Hcontent.
    apply actions_content in Hcontent as ->.
    by apply succeeded_elem.
  - by apply Hlocks.
Qed.

(** A failed call among the events of a run is the error the run throws. *)
Lemma ran_failed_thrown {A} (planned : list Call) (r : Result A) (evs : list Event)
    (c : Call) (e : JsError) :
  ran planned r evs → Called c (Throw e) ∈ evs → r = Throw e.
Proof.
  destruct r as [v|e']; simpl.
  - intros [_ Hsucc] Hin. rewrite Forall_forall in Hsucc. by apply Hsucc in Hin.
  - intros (pre & c' & -> & Hpre & _) Hin.
    apply elem_of_app in Hin as [Hin|Hin].
    + rewrite Forall_forall in Hpre. by apply Hpre in Hin.
    + apply list_elem_of_singleton in Hin. by injection Hin as _ ->.
Qed.

(** C3, amended. A failing per-thread action is re-thrown by
    [processThread], and the batch executor does not contain it: when a
    call fails, [processThreadsBatch] throws the error of that call. The
    failed call is the last call of the pass: every call before it
    succeeded, the calls planned after it are not issued. A pass that
    returns has issued every planned call, each with success. The error
    the batch executor throws is thrown by the operation given to
    [withRetry]; an operation that throws is run a second time, 1000 ms
    later, from the state the failed run left, and whatever the second
    run does the [ThreadCreate] handler, which alone contains the
    failure, returns normally. *)
Theorem C3_failure_ends_the_pass (threads : list Thread) (newThreadId : string) thread s :
  (∀ t (isSecondLatest : bool), ∃ evs,
     trace (processThread MESSAGE_CONTENT t isSecondLatest s).2 = trace s ++ evs ∧
     ∀ c e, Called c (Throw e) ∈ evs →
            (processThread MESSAGE_CONTENT t isSecondLatest s).1 = Throw e) ∧
  (∃ evs,
     trace (processThreadsBatch MESSAGE_CONTENT threads newThreadId s).2 = trace s ++ evs ∧
     ∀ c e, Called c (Throw e) ∈ evs →
            (processThreadsBatch MESSAGE_CONTENT threads newThreadId s).1 = Throw e) ∧
  (∀ e, (processThreadsBatch MESSAGE_CONTENT threads newThreadId s).1 = Throw e →
        ∃ pre c,
          trace (processThreadsBatch MESSAGE_CONTENT threads newThreadId s).2
          = trace s ++ pre ++ [Called c (Throw e)] ∧
          Forall succeeded pre ∧
          (call_of <$> pre ++ [Called c (Throw e)])
            `prefix_of` flat_map (actions MESSAGE_CONTENT) (actionPlan threads newThreadId)) ∧
  ((processThreadsBatch MESSAGE_CONTENT threads newThreadId s).1 = Ok tt →
   ∃ evs,
     trace (processThreadsBatch MESSAGE_CONTENT threads newThreadId s).2 = trace s ++ evs ∧
     Forall succeeded evs ∧
     call_of <$> evs = flat_map (actions MESSAGE_CONTENT) (actionPlan threads newThreadId)) ∧
  (∀ channel w1 allThreads s2 e,
     fetchChannel CHANNEL_ID (world s) = (Ok channel, w1) →
     getThreadsWithCache channel (mkState w1 (threadCache s) (rateLimit s) (trace s))
     = (Ok allThreads, s2) →
     (2 ≤ length (unlockedThreads allThreads))%nat →
     (processThreadsBatch MESSAGE_CONTENT (unlockedThreads allThreads) (id thread) s2).1
     = Throw e →
     (operation MESSAGE_CONTENT CHANNEL_ID thread s).1 = Throw e) ∧
  (∀ e, parentId thread = CHANNEL_ID →
        (operation MESSAGE_CONTENT CHANNEL_ID thread s).1 = Throw e →
        onThreadCreate MESSAGE_CONTENT CHANNEL_ID thread s
        = (Ok tt,
           (operation MESSAGE_CONTENT CHANNEL_ID thread
              (sleepState 1000 (operation MESSAGE_CONTENT CHANNEL_ID thread s).2)).2)) ∧
  (onThreadCreate MESSAGE_CONTENT CHANNEL_ID thread s).1 = Ok tt.
Proof.
  destruct (processThreadsBatch_issues MESSAGE_CONTENT threads newThreadId s)
    as (evs & Htrace & Hran).
  split; [|split; [|split; [|split; [|split; [|split]]]]].
  - intros t isSecondLatest.
    destruct (processThread_issues MESSAGE_CONTENT t isSecondLatest s)
      as (evs' & Htrace' & Hran').
    exists evs'. split; [done|]. intros c e. by eapply ran_failed_thrown.
  - exists evs. split; [done|]. intros c e. by eapply ran_failed_thrown.
  - intros e He. rewrite He in Hran.
    destruct Hran as (pre & c & -> & Hpre & Hprefix). by exists pre, c.
  - intros Hok. rewrite Hok in Hran. destruct Hran as [Hcalls Hsucc]. by exists evs.
  - intros channel w1 allThreads s2 e Hchannel Hthreads Hmany Hthrow.
    unfold operation, bind, external. rewrite Hchannel, Hthreads.
    unfold reconcile. by rewrite bool_decide_eq_true_2 by done.
  - intros e Hparent Hthrow.
    unfold onThreadCreate. rewrite bool_decide_eq_false_2 by (by intros []).
    unfold tryCatch, withRetry. change RETRY_MAX_ATTEMPTS with 2%nat. simpl.
    destruct (operation MESSAGE_CONTENT CHANNEL_ID thread s) as [r s1].
    simpl in Hthrow. subst r. simpl.
    change (retryDelay 1) with 1000.
    by destruct (operation MESSAGE_CONTENT CHANNEL_ID thread (sleepState 1000 s1))
      as [[[]|e2] s2].
  - unfold onThreadCreate. case_bool_decide; [done|].
    unfold tryCatch. by destruct (withRetry _ _ _ s) as [[[]|e] s'].
Qed.

End Claims.

(** ** The theorems at work on the scripted platform *)

(** Scenario 8 of the specification: T1, T2, T3 unlocked, T3 the trigger. *)
Example scenario_three_unlocked :
  trace (onThreadCreate "moved" "chan" thread3
           (boot (quiet 0 [thread1; thread2; thread3]))).2
  = [Called (Send "2" "moved") (Ok tt);
     Called (SetLocked "2" true) (Ok tt);
     Called (SetLocked "1" true) (Ok tt)].
Proof. vm_compute. reflexivity. Qed.

(** Scenario 9: T1 locked, T2 the trigger. *)
Example scenario_one_locked :
  trace (onThreadCreate "moved" "chan" thread2 (boot (quiet 0 [locked1; thread2]))).2 = [].
Proof. vm_compute. reflexivity. Qed.

(** Scenario 10: T1 archived and unlocked, T2 the trigger. *)
Example scenario_archived :
  trace (onThreadCreate "moved" "chan" thread2
           (boot (mkScripted 0 [] [thread2] [archived1]))).2
  = [Called (SetArchived "1" false) (Ok tt);
     Called (Send "1" "moved") (Ok tt);
     Called (SetLocked "1" true) (Ok tt)].
Proof. vm_compute. reflexivity. Qed.

(** A lock that keeps failing: both attempts of the handler send the
    message to thread 2 and stop at its lock; thread 1 is never reached. *)
Example retry_repeats_the_message :
  (let run := onThreadCreate "moved" "chan" thread3
                (boot (mkScripted 0 [true; false; true; false]
                                  [thread1; thread2; thread3] [])) in
   (run.1, trace run.2))
  = (Ok tt,
     [Called (Send "2" "moved") (Ok tt);
      Called (SetLocked "2" true) (Throw missingPermissions);
      Called (Send "2" "moved") (Ok tt);
      Called (SetLocked "2" true) (Throw missingPermissions)]).
Proof. vm_compute. reflexivity. Qed.

(** Scenario 8 again: the run returns, and thread 2 is the one recipient. *)
Lemma C1_witness :
  (reconcile "moved" [thread1; thread2; thread3] thread3
     (boot (quiet 0 [thread1; thread2; thread3]))).1 = Ok tt ∧
  ∃ (r : Thread) (evs : list Event),
    r = thread2 ∧
    secondLatest (unlockedThreads [thread1; thread2; thread3]) (id thread3) = Some r ∧
    trace (reconcile "moved" [thread1; thread2; thread3] thread3
             (boot (quiet 0 [thread1; thread2; thread3]))).2
    = trace (boot (quiet 0 [thread1; thread2; thread3])) ++ evs ∧
    recipients (call_of <$> evs) = [id r].
Proof.
  assert ((reconcile "moved" [thread1; thread2; thread3] thread3
             (boot (quiet 0 [thread1; thread2; thread3]))).1 = Ok tt) as Hreturns
    by (vm_compute; reflexivity).
  split; [exact Hreturns|].
  destruct (C1_one_message_to_second_latest "moved" [thread1; thread2; thread3] thread3
              (boot (quiet 0 [thread1; thread2; thread3])))
    as (r & evs & Hr & _ & _ & _ & _ & Htrace & _ & Hone).
  - exists thread3. split; [repeat constructor | split; reflexivity].
  - exists thread2. split; [repeat constructor | split; [reflexivity | discriminate]].
  - exists r, evs. split; [|split; [exact Hr | split; [exact Htrace | exact (Hone Hreturns)]]].
    vm_compute in Hr. by injection Hr as <-.
Defined.

Lemma C7_witness :
  reconciliationPlan [locked1; thread2] thread2 = [] ∧
  reconcile "moved" [locked1; thread2] thread2 (boot (quiet 0 [locked1; thread2]))
  = (Ok tt, boot (quiet 0 [locked1; thread2])).
Proof.
  apply (C7_all_locked_nothing_issued "moved" [locked1; thread2] thread2
           (boot (quiet 0 [locked1; thread2]))).
  intros t Ht Hne.
  apply elem_of_cons in Ht as [->|Ht]; [reflexivity|].
  apply list_elem_of_singleton in Ht as ->. destruct Hne. reflexivity.
Defined.

Lemma C9_witness :
  ∃ (newest : Thread) (evs : list Event),
    trace (operation "moved" "chan" thread3 staleState).2 = trace staleState ++ evs ∧
    (∀ t, t ∈ [thread1; thread2] → locked t = false →
          Called (SetLocked (id t) true) (Ok tt) ∈ evs) ∧
    head (unlockedThreads [thread1; thread2]) = Some newest ∧
    newest ∈ [thread1; thread2] ∧ locked newest = false ∧
    (∀ t, t ∈ [thread1; thread2] → locked t = false → createdAt t ≤ createdAt newest) ∧
    Called (Send (id newest) "moved") (Ok tt) ∈ evs ∧
    Called (SetLocked (id newest) true) (Ok tt) ∈ evs ∧
    recipients (call_of <$> evs) = [id newest].
Proof.
  apply (C9_stale_snapshot "moved" "chan" thread3 (mkChannel "chan") (world staleState)
           [thread1; thread2] staleState).
  - reflexivity.
  - vm_compute. reflexivity.
  - intros Hin. apply list_elem_of_In in Hin. simpl in Hin.
    destruct Hin as [Heq|[Heq|[]]]; discriminate.
  - simpl. lia.
  - vm_compute. reflexivity.
Defined.

(** The stale snapshot at work: thread 2, left open by the previous event,
    gets the message and is locked, although thread 3 is the new thread. *)
Example stale_snapshot_trace :
  trace (onThreadCreate "moved" "chan" thread3 staleState).2
  = [Called (Send "2" "moved") (Ok tt);
     Called (SetLocked "2" true) (Ok tt);
     Called (SetLocked "1" true) (Ok tt)].
Proof. vm_compute. reflexivity. Qed.

(** The amended C3 at work: the lock of thread 2 fails in both attempts.
    The first run of the operation throws; the handler runs it again
    1000 ms later and returns normally. *)
Lemma C3_witness :
  let s := boot (mkScripted 0 [true; false; true; false] [thread1; thread2; thread3] []) in
  ((processThreadsBatch "moved" [thread3; thread2; thread1] "3" s).1
   = Throw missingPermissions ∧
   ∃ pre c,
     trace (processThreadsBatch "moved" [thread3; thread2; thread1] "3" s).2
     = trace s ++ pre ++ [Called c (Throw missingPermissions)] ∧
     Forall succeeded pre ∧
     (call_of <$> pre ++ [Called c (Throw missingPermissions)])
       `prefix_of` flat_map (actions "moved") (actionPlan [thread3; thread2; thread1] "3")) ∧
  (operation "moved" "chan" thread3 s).1 = Throw missingPermissions ∧
  onThreadCreate "moved" "chan" thread3 s
  = (Ok tt,
     (operation "moved" "chan" thread3
        (sleepState 1000 (operation "moved" "chan" thread3 s).2)).2) ∧
  trace (onThreadCreate "moved" "chan" thread3 s).2
  = [Called (Send "2" "moved") (Ok tt);
     Called (SetLocked "2" true) (Throw missingPermissions);
     Called (Send "2" "moved") (Ok tt);
     Called (SetLocked "2" true) (Throw missingPermissions)].
Proof.
  intros s.
  assert ((processThreadsBatch "moved" [thread3; thread2; thread1] "3" s).1
          = Throw missingPermissions) as Hpass by (vm_compute; reflexivity).
  assert ((operation "moved" "chan" thread3 s).1 = Throw missingPermissions) as Hthrow
    by (vm_compute; reflexivity).
  pose proof (C3_failure_ends_the_pass "moved" "chan" [thread3; thread2; thread1] "3" thread3 s)
    as (_ & _ & Hlast & _ & Hreaches & Hretry & _).
  split; [split; [exact Hpass | exact (Hlast missingPermissions Hpass)]|].
  split.
  - apply (Hreaches (mkChannel "chan") (world s) [thread1; thread2; thread3]
             (getThreadsWithCache (mkChannel "chan") s).2 missingPermissions).
    + reflexivity.
    + vm_compute. reflexivity.
    + vm_compute. lia.
    + vm_compute. reflexivity.
  - pose proof (Hretry missingPermissions eq_refl Hthrow) as Hagain.
    split; [exact Hagain|]. rewrite Hagain. vm_compute. reflexivity.
Defined.

(** C8 at work. On a platform that answers every call, the archived,
    unlocked second-latest thread receives unarchive, message, lock. On a
    platform that refuses the message, the run stops there: the unarchive
    went through, the failed message is the last call, the lock is not
    issued. *)
Lemma C8_witness :
  trace (processThread "moved" archived1 true (boot (quiet 0 [thread2; archived1]))).2
  = [] ++ [Called (SetArchived "1" false) (Ok tt);
           Called (Send "1" "moved") (Ok tt);
           Called (SetLocked "1" true) (Ok tt)] ∧
  ∃ evs,
    trace (processThread "moved" archived1 true
             (boot (mkScripted 0 [true; false] [thread2] [archived1]))).2 = [] ++ evs ∧
    (call_of <$> evs)
      `prefix_of` [SetArchived "1" false; Send "1" "moved"; SetLocked "1" true] ∧
    (∃ r evs', evs = Called (SetArchived "1" false) r :: evs') ∧
    ∃ pre c, evs = pre ++ [Called c (Throw missingPermissions)] ∧ Forall succeeded pre.
Proof.
  split.
  - apply (proj1 (proj2 (C8_fixed_order "moved" archived1 true
                           (boot (quiet 0 [thread2; archived1]))))).
    + reflexivity.
    + reflexivity.
    + reflexivity.
    + vm_compute. reflexivity.
  - destruct (proj1 (C8_fixed_order "moved" archived1 true
                       (boot (mkScripted 0 [true; false] [thread2] [archived1]))))
      as (evs & Htrace & Hprefix & Hfirst & Hlast).
    exists evs. split; [exact Htrace|]. split; [exact Hprefix|]. split.
    + apply (Hfirst _ [Send "1" "moved"; SetLocked "1" true]). reflexivity.
    + exact Hlast.
Defined.

(** C3, as stated, fails: in the batch T3 (trigger), T2, T1 the message to
    T2 goes through and the lock of T2 fails. The failure leaves the batch
    executor, which throws it, and T1, unlocked and not the trigger, is not
    processed: no call is issued on it. *)
Lemma C3_counterexample :
  let run := processThreadsBatch "moved" [thread3; thread2; thread1] "3"
               (boot (mkScripted 0 [true; false] [thread1; thread2; thread3] [])) in
  run.1 = Throw missingPermissions ∧
  trace run.2 = [Called (Send "2" "moved") (Ok tt);
                 Called (SetLocked "2" true) (Throw missingPermissions)] ∧
  locked thread1 = false ∧ id thread1 ≠ "3" ∧
  Forall (spares (id thread1)) (trace run.2).
Proof.
  vm_compute. repeat split; try discriminate.
  repeat constructor; discriminate.
Qed.

(** * Further properties of the code *)

(** ** The rate limiter: what is let through at once *)

Lemma filter_filter_weaker {A} (P Q : A → Prop) `{∀ x, Decision (P x)} `{∀ x, Decision (Q x)}
    (l : list A) :
  (∀ x, P x → Q x) → filter P (filter Q l) = filter P l.
Proof.
  intros HPQ. induction l as [|x l IH]; [done|].
  rewrite (filter_cons Q). destruct (decide (Q x)) as [HQ|HQ].
  - rewrite !filter_cons. destruct (decide (P x)); by rewrite IH.
  - rewrite IH, filter_cons. destruct (decide (P x)) as [HP|]; [|done].
    destruct HQ. by apply HPQ.
Qed.

Lemma length_filter_weaker {A} (P Q : A → Prop) `{∀ x, Decision (P x)} `{∀ x, Decision (Q x)}
    (l : list A) :
  (∀ x, P x → Q x) → (length (filter P l) ≤ length (filter Q l))%nat.
Proof.
  intros HPQ. rewrite <- (filter_filter_weaker P Q l HPQ). apply length_filter.
Qed.

Lemma timesOf_app (threadId : string) (log1 log2 : list (Z * string)) :
  Limiter.timesOf threadId (log1 ++ log2)
  = Limiter.timesOf threadId log1 ++ Limiter.timesOf threadId log2.
Proof. unfold Limiter.timesOf. by rewrite filter_app, fmap_app. Qed.

(** A sweep is not seen by any later reading of the record. *)
Lemma validOps_cleanup (now later : Z) (threadId : string) (r : RateLimit.t) :
  now ≤ later →
  RateLimit.validOps later threadId (RateLimit.cleanup now r)
  = RateLimit.validOps later threadId r.
Proof.
  intros Hle. unfold RateLimit.validOps, RateLimit.cleanup. simpl. rewrite lookup_omap.
  destruct (RateLimit.operations r !! threadId) as [ops|]; [|done]. simpl.
  destruct (filter (λ time, now - time < RateLimit.timeWindow r) ops) as [|t valid] eqn:Hvalid;
    simpl.
  - rewrite <- (filter_filter_weaker (λ time, later - time < RateLimit.timeWindow r)
                 (λ time, now - time < RateLimit.timeWindow r) ops) by (intros; lia).
    by rewrite Hvalid.
  - rewrite <- Hvalid. apply filter_filter_weaker. intros; lia.
Qed.

Lemma canProceed_limits (now : Z) (threadId : string) (resolve : nat) (r : RateLimit.t) :
  RateLimit.maxOperations (RateLimit.canProceed now threadId resolve r).2
  = RateLimit.maxOperations r ∧
  RateLimit.timeWindow (RateLimit.canProceed now threadId resolve r).2
  = RateLimit.timeWindow r.
Proof. unfold RateLimit.canProceed. by case_bool_decide. Qed.

Lemma timerCallback_limits (threadId : string) (r : RateLimit.t) :
  RateLimit.maxOperations (RateLimit.timerCallback threadId r).2 = RateLimit.maxOperations r ∧
  RateLimit.timeWindow (RateLimit.timerCallback threadId r).2 = RateLimit.timeWindow r.
Proof.
  unfold RateLimit.timerCallback. by destruct (default [] (RateLimit.queue r !! threadId)).
Qed.

(** A suspended call leaves the record as it is. *)
Lemma canProceed_suspended_operations (now : Z) (threadId : string) (resolve : nat)
    (r : RateLimit.t) :
  (RateLimit.canProceed now threadId resolve r).1 = RateLimit.Suspended →
  RateLimit.operations (RateLimit.canProceed now threadId resolve r).2
  = RateLimit.operations r.
Proof. unfold RateLimit.canProceed. by case_bool_decide. Qed.

(** A call let through at once adds its own time to what a later reading finds. *)
Lemma validOps_canProceed_immediate (now later : Z) (threadId other : string) (resolve : nat)
    (r : RateLimit.t) :
  (RateLimit.canProceed now threadId resolve r).1 = RateLimit.Immediate →
  now ≤ later →
  RateLimit.validOps later other (RateLimit.canProceed now threadId resolve r).2
  = RateLimit.validOps later other r ++
    (if decide (other = threadId)
     then filter (λ time, later - time < RateLimit.timeWindow r) [now] else []).
Proof.
  unfold RateLimit.canProceed. case_bool_decide as Hfull; [done|]. intros _ Hle.
  unfold RateLimit.validOps at 1. simpl.
  destruct (decide (other = threadId)) as [->|Hne].
  - rewrite lookup_insert_eq. simpl. rewrite filter_app. f_equal.
    unfold RateLimit.validOps. apply filter_filter_weaker. intros; lia.
  - rewrite lookup_insert_ne by done. by rewrite app_nil_r.
Qed.

Lemma within_app (window upto : Z) (l1 l2 : list Z) :
  Limiter.within window upto (l1 ++ l2)
  = (Limiter.within window upto l1 + Limiter.within window upto l2)%nat.
Proof. unfold Limiter.within. by rewrite filter_app, length_app. Qed.

Lemma timesOf_singleton (other threadId : string) (now : Z) :
  Limiter.timesOf other [(now, threadId)] = if decide (threadId = other) then [now] else [].
Proof.
  unfold Limiter.timesOf. rewrite filter_cons. simpl.
  by destruct (decide (threadId = other)).
Qed.

Lemma within_singleton (window upto t : Z) :
  Limiter.within window upto [t]
  = if decide (upto - window < t ∧ t ≤ upto) then 1%nat else 0%nat.
Proof.
  unfold Limiter.within. rewrite filter_cons.
  by destruct (decide (upto - window < t ∧ t ≤ upto)).
Qed.

(** The invariant of a limiter that started with an empty record: what a
    reading of the record finds is what the log holds for the window, and
    the log never has more than [maxOperations] entries of one thread in
    one window. *)
Lemma limiter_invariant (r0 : RateLimit.t) (steps : list Limiter.Step) :
  RateLimit.operations r0 = ∅ →
  Limiter.timeOrdered steps →
  RateLimit.maxOperations (Limiter.run r0 steps).1 = RateLimit.maxOperations r0 ∧
  RateLimit.timeWindow (Limiter.run r0 steps).1 = RateLimit.timeWindow r0 ∧
  (∀ threadId later,
     Forall (λ t, t ≤ later) (omap Limiter.stepTime steps) →
     RateLimit.validOps later threadId (Limiter.run r0 steps).1
     = filter (λ time, later - time < RateLimit.timeWindow r0)
              (Limiter.timesOf threadId (Limiter.run r0 steps).2)) ∧
  (∀ threadId upto,
     (Limiter.within (RateLimit.timeWindow r0) upto
        (Limiter.timesOf threadId (Limiter.run r0 steps).2)
      ≤ RateLimit.maxOperations r0)%nat).
Proof.
  intros Hempty. induction steps as [|st steps IH] using rev_ind; intros Hordered.
  - unfold Limiter.run. simpl. repeat split; [|intros; unfold Limiter.within; simpl; lia].
    intros threadId later _. unfold RateLimit.validOps. by rewrite Hempty, lookup_empty.
  - unfold Limiter.timeOrdered in Hordered. rewrite omap_app in Hordered.
    apply StronglySorted_app in Hordered as (Hbefore & Hsteps & _).
    destruct (IH Hsteps) as (Hmax & Hwindow & Hrecord & Hbound). clear IH.
    unfold Limiter.run in *. rewrite foldl_app. simpl.
    destruct (foldl Limiter.step (r0, []) steps) as [r log]. simpl in *.
    destruct st as [now threadId resolve|threadId|now]; simpl.
    + assert (Forall (λ t, t ≤ now) (omap Limiter.stepTime steps)) as Hnow.
      { apply Forall_forall. intros t Ht. apply (Hbefore t now Ht). simpl. left. }
      destruct (canProceed_limits now threadId resolve r) as [Hmax' Hwindow'].
      destruct (RateLimit.canProceed now threadId resolve r) as [[] r'] eqn:Hcall;
        simpl in *.
      * assert ((RateLimit.canProceed now threadId resolve r).1 = RateLimit.Immediate)
          as Himmediate by (by rewrite Hcall).
        assert (length (RateLimit.validOps now threadId r) < RateLimit.maxOperations r)%nat
          as Hroom by (by apply canProceed_immediate in Himmediate).
        split; [congruence|]. split; [congruence|]. split.
        -- intros other later Hlater. rewrite omap_app, Forall_app in Hlater.
           destruct Hlater as [Hlater Hlast]. simpl in Hlast.
           rewrite Forall_singleton in Hlast.
           pose proof (validOps_canProceed_immediate now later threadId other resolve r
                         Himmediate Hlast) as Hvalid.
           rewrite Hcall in Hvalid. simpl in Hvalid. rewrite Hvalid.
           rewrite (Hrecord other later Hlater), timesOf_app, filter_app, Hwindow.
           f_equal. rewrite timesOf_singleton.
           destruct (decide (other = threadId)) as [->|Hne].
           ++ by rewrite decide_True.
           ++ by rewrite decide_False by congruence.
        -- intros other upto. rewrite timesOf_app, within_app, timesOf_singleton.
           destruct (decide (threadId = other)) as [<-|Hne];
             [|specialize (Hbound other upto); unfold Limiter.within at 2; simpl; lia].
           rewrite within_singleton.
           destruct (decide (upto - RateLimit.timeWindow r0 < now ∧ now ≤ upto)) as [Hin|Hout];
             [|specialize (Hbound threadId upto); lia].
           assert (Limiter.within (RateLimit.timeWindow r0) upto (Limiter.timesOf threadId log)
                   ≤ length (RateLimit.validOps now threadId r))%nat as Hcounted.
           { rewrite (Hrecord threadId now Hnow). unfold Limiter.within.
             apply length_filter_weaker. intros t Ht. lia. }
           lia.
      * assert (RateLimit.operations r' = RateLimit.operations r) as Hsame.
        { pose proof (canProceed_suspended_operations now threadId resolve r) as Hs.
          rewrite Hcall in Hs. by apply Hs. }
        split; [congruence|]. split; [congruence|]. split; [|done].
        intros other later Hlater. rewrite omap_app, Forall_app in Hlater.
        destruct Hlater as [Hlater _]. rewrite <- (Hrecord other later Hlater).
        unfold RateLimit.validOps. by rewrite Hsame, Hwindow'.
    + destruct (timerCallback_limits threadId r) as [Hmax' Hwindow'].
      split; [congruence|]. split; [congruence|]. split; [|done].
      intros other later Hlater. rewrite omap_app, Forall_app in Hlater.
      destruct Hlater as [Hlater _].
      rewrite <- (Hrecord other later Hlater).
      unfold RateLimit.validOps. by rewrite timerCallback_records_nothing, Hwindow'.
    + split; [done|]. split; [done|]. split; [|done].
      intros other later Hlater. rewrite omap_app, Forall_app in Hlater.
      destruct Hlater as [Hlater Hlast]. simpl in Hlast. rewrite Forall_singleton in Hlast.
      rewrite validOps_cleanup by done. by apply Hrecord.
Qed.

(** With the clock never going back, a limiter that starts with an empty
    record lets through at once at most [maxOperations] calls of one thread
    in any window of [timeWindow] ms, whatever the order of calls, timers
    and sweeps. *)
Theorem immediate_admissions_bounded (r0 : RateLimit.t) (steps : list Limiter.Step)
    (threadId : string) (upto : Z) :
  RateLimit.operations r0 = ∅ →
  Limiter.timeOrdered steps →
  (Limiter.within (RateLimit.timeWindow r0) upto
     (Limiter.timesOf threadId (Limiter.run r0 steps).2)
   ≤ RateLimit.maxOperations r0)%nat.
Proof.
  intros Hempty Hordered.
  by destruct (limiter_invariant r0 steps Hempty Hordered) as (_ & _ & _ & Hbound).
Qed.

(** A sweep at [now] changes no later decision of [canProceed], leaves the
    queue alone, and keeps on record only threads with a timestamp still
    inside the window. *)
Theorem cleanup_transparent (now later : Z) (threadId : string) (resolve : nat)
    (r : RateLimit.t) :
  now ≤ later →
  (RateLimit.canProceed later threadId resolve (RateLimit.cleanup now r)).1
  = (RateLimit.canProceed later threadId resolve r).1 ∧
  RateLimit.queue (RateLimit.cleanup now r) = RateLimit.queue r ∧
  ∀ ops, RateLimit.operations (RateLimit.cleanup now r) !! threadId = Some ops →
         ops ≠ [] ∧ Forall (λ time, now - time < RateLimit.timeWindow r) ops.
Proof.
  intros Hle. split; [|split; [done|]].
  - pose proof (validOps_cleanup now later threadId r Hle) as Hvalid.
    unfold RateLimit.canProceed. rewrite Hvalid. simpl. by case_bool_decide.
  - intros ops. unfold RateLimit.cleanup. simpl. rewrite lookup_omap.
    destruct (RateLimit.operations r !! threadId) as [old|]; [|done]. simpl.
    destruct (filter (λ time, now - time < RateLimit.timeWindow r) old) as [|t valid] eqn:Hvalid;
      [done|].
    intros [= <-]. split; [done|]. rewrite <- Hvalid.
    apply Forall_forall. intros time Htime. by apply list_elem_of_filter in Htime as [? _].
Qed.

(** ** The rate limiter: nobody is turned away *)

Lemma queueOf_timerCallback (threadId other : string) (r : RateLimit.t) :
  (RateLimit.timerCallback threadId r).1 = head (Limiter.queueOf threadId r) ∧
  Limiter.queueOf other (RateLimit.timerCallback threadId r).2
  = if decide (other = threadId) then tail (Limiter.queueOf threadId r)
    else Limiter.queueOf other r.
Proof.
  unfold RateLimit.timerCallback, Limiter.queueOf.
  destruct (default [] (RateLimit.queue r !! threadId)) as [|c [|c' rest]] eqn:Hq; simpl;
    (split; [done|]); destruct (decide (other = threadId)) as [->|Hne];
    rewrite ?lookup_delete_eq, ?lookup_insert_eq, ?lookup_delete_ne, ?lookup_insert_ne by done;
    done.
Qed.

Lemma queueOf_canProceed (now : Z) (threadId other : string) (resolve : nat) (r : RateLimit.t) :
  Limiter.queueOf other (RateLimit.canProceed now threadId resolve r).2
  = Limiter.queueOf other r ++
    match (RateLimit.canProceed now threadId resolve r).1 with
    | RateLimit.Suspended => if decide (other = threadId) then [resolve] else []
    | RateLimit.Immediate => []
    end.
Proof.
  unfold RateLimit.canProceed, Limiter.queueOf. case_bool_decide as Hfull; simpl;
    [|by rewrite app_nil_r].
  destruct (decide (other = threadId)) as [->|Hne].
  - rewrite lookup_insert_eq. simpl. f_equal.
    case_bool_decide as Hhas; [done|]. rewrite lookup_insert_eq. simpl.
    destruct (RateLimit.queue r !! threadId) eqn:Hq; [|done].
    destruct Hhas. by eexists.
  - rewrite lookup_insert_ne by done. rewrite app_nil_r.
    case_bool_decide; [done|]. by rewrite lookup_insert_ne.
Qed.

Lemma pendingFor_cons (threadId : string) (timer : Z * string) (pending : list (Z * string)) :
  pendingFor threadId (timer :: pending)
  = ((if decide (timer.2 = threadId) then 1 else 0) + pendingFor threadId pending)%nat.
Proof.
  unfold pendingFor. rewrite filter_cons. by destruct (decide (timer.2 = threadId)).
Qed.

Lemma passedCallers_app (threadId : string) (log1 log2 : list (Z * string * nat)) :
  passedCallers threadId (log1 ++ log2)
  = passedCallers threadId log1 ++ passedCallers threadId log2.
Proof. unfold passedCallers. by rewrite filter_app, fmap_app. Qed.

Lemma callersFor_app (threadId : string) (c1 c2 : list (nat * (Z * string))) :
  callersFor threadId (c1 ++ c2) = callersFor threadId c1 ++ callersFor threadId c2.
Proof. unfold callersFor. by rewrite filter_app, fmap_app. Qed.

(** A timer that fires releases the caller that waited longest for its thread. *)
Lemma fire_accounted (timer : Z * string) (pending : list (Z * string)) (l : EventLoop.t)
    (calls : list (nat * (Z * string))) :
  accounted (timer :: pending) l calls → accounted pending (EventLoop.fire l timer) calls.
Proof.
  intros [Htotal Hthreads]. unfold EventLoop.fire.
  destruct (queueOf_timerCallback timer.2 timer.2 (EventLoop.limiter l)) as [Hreleased _].
  destruct (Hthreads timer.2) as [Hpending _].
  rewrite pendingFor_cons, decide_True in Hpending by done.
  destruct (Limiter.queueOf timer.2 (EventLoop.limiter l)) as [|caller rest] eqn:Hqueue;
    [simpl in Hpending; lia|].
  destruct (RateLimit.timerCallback timer.2 (EventLoop.limiter l)) as [released r] eqn:Hfire.
  simpl in Hreleased. subst released. split.
  - simpl in *. rewrite length_app. simpl. lia.
  - intros threadId. simpl.
    destruct (queueOf_timerCallback timer.2 threadId (EventLoop.limiter l)) as [_ Hafter].
    rewrite Hfire in Hafter. simpl in Hafter. rewrite Hafter.
    destruct (Hthreads threadId) as [Hcount Hperm].
    rewrite pendingFor_cons in Hcount. rewrite passedCallers_app.
    unfold passedCallers at 2. rewrite filter_cons. simpl.
    destruct (decide (threadId = timer.2)) as [->|Hne].
    + rewrite decide_True in Hcount by done. rewrite decide_True by done.
      rewrite Hqueue in *. simpl in *. split; [lia|].
      rewrite <- Hperm, <- app_assoc. done.
    + rewrite decide_False in Hcount by done. rewrite decide_False by done.
      simpl. rewrite app_nil_r. done.
Qed.

Lemma fire_timers (l : EventLoop.t) (due : list (Z * string)) :
  EventLoop.timers (foldl EventLoop.fire l due) = EventLoop.timers l.
Proof.
  revert l. induction due as [|timer due IH]; intros l; [done|].
  simpl. rewrite IH. unfold EventLoop.fire.
  by destruct (RateLimit.timerCallback timer.2 (EventLoop.limiter l)).
Qed.

Lemma fire_all_accounted (due pending : list (Z * string)) (calls : list (nat * (Z * string))) :
  ∀ l, accounted (due ++ pending) l calls →
       accounted pending (foldl EventLoop.fire l due) calls.
Proof.
  induction due as [|timer due IH]; intros l Hl; [done|].
  simpl. apply IH. by apply fire_accounted.
Qed.

Lemma accounted_perm (p1 p2 : list (Z * string)) (l : EventLoop.t)
    (calls : list (nat * (Z * string))) :
  p1 ≡ₚ p2 → accounted p1 l calls → accounted p2 l calls.
Proof.
  intros Hperm [Htotal Hthreads]. split; [by rewrite <- Hperm|].
  intros threadId. destruct (Hthreads threadId) as [Hcount Hcallers].
  split; [|done]. unfold pendingFor in *. by rewrite <- Hperm.
Qed.

Lemma accounted_same (pending : list (Z * string)) (l l' : EventLoop.t)
    (calls : list (nat * (Z * string))) :
  EventLoop.limiter l' = EventLoop.limiter l →
  EventLoop.admissions l' = EventLoop.admissions l →
  accounted pending l calls → accounted pending l' calls.
Proof. unfold accounted. by intros -> ->. Qed.

Lemma runTimers_accounted (now : Z) (l : EventLoop.t) (calls : list (nat * (Z * string))) :
  accounted (EventLoop.timers l) l calls →
  accounted (EventLoop.timers (EventLoop.runTimers now l)) (EventLoop.runTimers now l) calls.
Proof.
  intros Hl. unfold EventLoop.runTimers. rewrite fire_timers. simpl.
  apply fire_all_accounted.
  eapply accounted_perm; [symmetry; apply filter_app_complement|].
  by eapply accounted_same; [| |exact Hl].
Qed.

Lemma call_accounted (l : EventLoop.t) (c : nat * (Z * string))
    (calls : list (nat * (Z * string))) :
  accounted (EventLoop.timers l) l calls →
  accounted (EventLoop.timers (EventLoop.call l c)) (EventLoop.call l c) (calls ++ [c]).
Proof.
  intros Hl. destruct c as [caller [now threadId]]. unfold EventLoop.call.
  pose proof (runTimers_accounted now l calls Hl) as [Htotal Hthreads].
  set (l1 := EventLoop.runTimers now l) in *.
  pose proof (λ other, queueOf_canProceed now threadId other caller (EventLoop.limiter l1))
    as Hqueue.
  destruct (RateLimit.canProceed now threadId caller (EventLoop.limiter l1)) as [[] r];
    simpl in Hqueue; split; simpl.
  - rewrite !length_app. simpl. lia.
  - intros other. destruct (Hthreads other) as [Hcount Hperm].
    rewrite Hqueue, app_nil_r. split; [done|].
    rewrite passedCallers_app, callersFor_app, <- Hperm.
    unfold passedCallers at 2, callersFor at 1. rewrite !filter_cons. simpl.
    destruct (decide (threadId = other)); simpl; [|by rewrite !app_nil_r].
    rewrite <- !app_assoc. apply Permutation_app_head, Permutation_app_comm.
  - rewrite !length_app. simpl. lia.
  - intros other. destruct (Hthreads other) as [Hcount Hperm].
    rewrite Hqueue. unfold pendingFor in *. rewrite filter_app, !length_app, Hcount.
    rewrite callersFor_app, <- Hperm.
    unfold callersFor at 1. rewrite !filter_cons. simpl.
    destruct (decide (other = threadId)) as [->|Hne].
    + rewrite !decide_True by done. simpl. split; [done|]. by rewrite app_assoc.
    + rewrite !decide_False by congruence. simpl. split; [done|]. by rewrite !app_nil_r.
Qed.

Lemma calls_accounted (more : list (nat * (Z * string))) :
  ∀ (l : EventLoop.t) (calls : list (nat * (Z * string))),
    accounted (EventLoop.timers l) l calls →
    accounted (EventLoop.timers (foldl EventLoop.call l more))
              (foldl EventLoop.call l more) (calls ++ more).
Proof.
  induction more as [|c more IH]; intros l calls Hl; simpl.
  - by rewrite app_nil_r.
  - replace (calls ++ c :: more) with ((calls ++ [c]) ++ more) by (by rewrite <- app_assoc).
    apply IH. by apply call_accounted.
Qed.

(** [canProceed] never turns a caller away: once all timers have fired,
    every call was let through exactly once, thread by thread. *)
Theorem every_caller_passes (maxOps : nat) (window : Z) (calls : list (Z * string)) :
  let log := EventLoop.admissions (EventLoop.run (RateLimit.new maxOps window) calls) in
  length log = length calls ∧
  ∀ threadId, passedCallers threadId log ≡ₚ callersFor threadId (imap pair calls).
Proof.
  simpl. unfold EventLoop.run.
  set (l := foldl EventLoop.call (EventLoop.start (RateLimit.new maxOps window))
                  (imap pair calls)).
  assert (accounted (EventLoop.timers l) l (imap pair calls)) as Hl.
  { apply (calls_accounted (imap pair calls) _ []). split; [done|].
    intros threadId. unfold Limiter.queueOf. simpl. by rewrite lookup_empty. }
  pose proof (fire_all_accounted (EventLoop.timers l) [] (imap pair calls)
                {| EventLoop.limiter := EventLoop.limiter l; EventLoop.timers := [];
                   EventLoop.admissions := EventLoop.admissions l |}) as Hflush.
  rewrite app_nil_r in Hflush.
  destruct Hflush as [Htotal Hthreads]; [by eapply accounted_same; [| |exact Hl]|].
  simpl in Htotal. rewrite length_imap in Htotal. split; [lia|].
  intros threadId. destruct (Hthreads threadId) as [Hcount Hperm].
  unfold pendingFor in Hcount. simpl in Hcount. symmetry in Hcount.
  apply nil_length_inv in Hcount. rewrite Hcount, app_nil_r in Hperm. done.
Qed.

(** ** The cache: round trips *)

(** What was [set] for a channel is what [get] returns for it until more
    than [duration] has passed, and absent from then on; the entries of
    other channels are read as before. *)
Theorem set_then_get (now later : Z) (channelId : string) (ths : list Thread)
    (c : ThreadCache.t) :
  (ThreadCache.get later channelId (ThreadCache.set now channelId ths c)).1
  = (if decide (later - now ≤ ThreadCache.duration c) then Some ths else None) ∧
  ∀ other, other ≠ channelId →
    (ThreadCache.get later other (ThreadCache.set now channelId ths c)).1
    = (ThreadCache.get later other c).1.
Proof.
  split.
  - unfold ThreadCache.get, ThreadCache.set. simpl. rewrite lookup_insert_eq. simpl.
    destruct (decide (later - now ≤ ThreadCache.duration c)).
    + by rewrite bool_decide_eq_false_2 by lia.
    + by rewrite bool_decide_eq_true_2 by lia.
  - intros other Hne. unfold ThreadCache.get, ThreadCache.set. simpl.
    rewrite lookup_insert_ne by done.
    destruct (ThreadCache.cache c !! other) as [data|]; [|done].
    by case_bool_decide.
Qed.

(** The periodic sweep is not seen by any later reader: a [get] made at or
    after the sweep answers as it would have without it. *)
Theorem cache_cleanup_transparent (now later : Z) (channelId : string) (c : ThreadCache.t) :
  now ≤ later →
  (ThreadCache.get later channelId (ThreadCache.cleanup now c)).1
  = (ThreadCache.get later channelId c).1.
Proof.
  intros Hle. unfold ThreadCache.get.
  change (ThreadCache.duration (ThreadCache.cleanup now c)) with (ThreadCache.duration c).
  destruct (ThreadCache.cache c !! channelId) as [data|] eqn:Hdata.
  - destruct (decide (now - ThreadCache.timestamp data ≤ ThreadCache.duration c)) as [Hkept|Hgone].
    + rewrite (proj2 (cleanup_lookup now channelId c data) (conj Hdata Hkept)).
      by case_bool_decide.
    + destruct (ThreadCache.cache (ThreadCache.cleanup now c) !! channelId) as [data'|] eqn:Hafter.
      * apply cleanup_lookup in Hafter as [Hsame Hfresh].
        rewrite Hdata in Hsame. injection Hsame as <-. lia.
      * by rewrite bool_decide_eq_true_2 by lia.
  - destruct (ThreadCache.cache (ThreadCache.cleanup now c) !! channelId) as [data'|] eqn:Hafter;
      [|done].
    apply cleanup_lookup in Hafter as [Hsame _]. congruence.
Qed.

Lemma get_miss_evicts (now : Z) (channelId : string) (c : ThreadCache.t) :
  (ThreadCache.get now channelId c).1 = None →
  ThreadCache.cache (ThreadCache.get now channelId c).2 !! channelId = None.
Proof.
  unfold ThreadCache.get.
  destruct (ThreadCache.cache c !! channelId) as [data|]; [case_bool_decide|];
    simpl; intros Hnone; first [done | apply lookup_delete_eq].
Qed.

Section MoreProgramFacts.

Context {W : Type} `{Platform W}.
Variable MESSAGE_CONTENT : string.
Variable CHANNEL_ID : string.

Implicit Types (s : State W) (thread : Thread) (allThreads : list Thread).

(** After a miss with both fetches answered, the list returned is the
    active threads followed by the archived ones, and it is what every
    later call returns, without fetching and without any change of state,
    for as long as the cache holds it. *)
Theorem getThreadsWithCache_memoizes (channel : Channel) (a b : list Thread) (w1 w2 : W) s :
  (ThreadCache.get (clock (world s)) (channel_id channel) (threadCache s)).1 = None →
  fetchActive channel (world s) = (Ok a, w1) →
  fetchArchived channel w1 = (Ok b, w2) →
  (getThreadsWithCache channel s).1 = Ok (a ++ b) ∧
  world (getThreadsWithCache channel s).2 = w2 ∧
  ∀ s', threadCache s' = threadCache (getThreadsWithCache channel s).2 →
        clock (world s') - clock w2 ≤ ThreadCache.duration (threadCache s) →
        getThreadsWithCache channel s' = (Ok (a ++ b), s').
Proof.
  intros Hmiss Hactive Harchived. unfold getThreadsWithCache at 1 2 3.
  destruct (ThreadCache.get (clock (world s)) (channel_id channel) (threadCache s))
    as [cached c] eqn:Hget.
  simpl in Hmiss. subst cached. rewrite Hactive, Harchived. simpl.
  assert (ThreadCache.duration c = ThreadCache.duration (threadCache s)) as Hduration.
  { unfold ThreadCache.get in Hget.
    destruct (ThreadCache.cache (threadCache s) !! channel_id channel) as [data|];
      [case_bool_decide|]; by simplify_eq. }
  split; [done|]. split; [done|].
  intros s' Hcache Hfresh.
  assert (ThreadCache.get (clock (world s')) (channel_id channel) (threadCache s')
          = (Some (a ++ b), threadCache s')) as Hhit.
  { rewrite Hcache. apply (get_hit _ _ _ (ThreadCache.mkEntry (clock w2) (a ++ b))).
    - simpl. apply lookup_insert_eq.
    - simpl. lia. }
  rewrite (getThreadsWithCache_hit channel (a ++ b) s') by (by rewrite Hhit).
  rewrite Hhit. simpl. by destruct s'.
Qed.

(** On a cache miss with a fetch that fails, [getThreadsWithCache]
    throws, the error thrown is the error of a fetch that failed (of the
    one that failed, when the other was answered), and nothing is left in
    the cache for the channel: the next call fetches again. *)
Theorem getThreadsWithCache_failure (channel : Channel) s :
  (ThreadCache.get (clock (world s)) (channel_id channel) (threadCache s)).1 = None →
  get_value (fetchActive channel (world s)).1 = None ∨
  get_value (fetchArchived channel (fetchActive channel (world s)).2).1 = None →
  ∃ e,
    (getThreadsWithCache channel s).1 = Throw e ∧
    ((fetchActive channel (world s)).1 = Throw e ∨
     (fetchArchived channel (fetchActive channel (world s)).2).1 = Throw e) ∧
    ThreadCache.cache (threadCache (getThreadsWithCache channel s).2) !! channel_id channel
    = None.
Proof.
  intros Hmiss Hfail. unfold getThreadsWithCache.
  pose proof (get_miss_evicts (clock (world s)) (channel_id channel) (threadCache s) Hmiss)
    as Hgone.
  destruct (ThreadCache.get (clock (world s)) (channel_id channel) (threadCache s))
    as [cached c]. simpl in *. subst cached.
  destruct (fetchActive channel (world s)) as [ra w1]. simpl in *.
  destruct (fetchArchived channel w1) as [rb w2]. simpl in *.
  destruct ra as [a|ea], rb as [b|eb]; simpl in *.
  - by destruct Hfail.
  - exists eb. auto.
  - exists ea. auto.
  - exists ea. auto.
Qed.

(** *** What the handler may do to the platform *)

Lemma actions_sanctioned (plan : list (Thread * bool)) (c : Call) (r : Result unit) :
  c ∈ flat_map (actions MESSAGE_CONTENT) plan → sanctioned MESSAGE_CONTENT (Called c r).
Proof.
  intros Hc. apply list_elem_of_In, in_flat_map in Hc as (p & _ & Hc).
  apply list_elem_of_In in Hc. exists (id p.1). unfold actions in Hc. simpl.
  destruct (archived p.1), p.2, (locked p.1); simpl in Hc;
    rewrite ?elem_of_cons, ?elem_of_nil in Hc;
    repeat destruct Hc as [Hc|Hc]; first [done | subst c; tauto].
Qed.

(** What holds of the calls of every plan holds of the calls of the operation. *)
Lemma operation_appended (P : Event → Prop) thread s :
  (∀ allThreads c r,
     c ∈ flat_map (actions MESSAGE_CONTENT) (reconciliationPlan allThreads thread) →
     P (Called c r)) →
  appended P s (operation MESSAGE_CONTENT CHANNEL_ID thread s).2.
Proof.
  intros HP. unfold operation, bind.
  pose proof (external_trace (fetchChannel CHANNEL_ID) s) as Hfetch.
  destruct (external (fetchChannel CHANNEL_ID) s) as [[channel|e] s1]; simpl in Hfetch;
    [|by apply appended_same_trace].
  pose proof (getThreadsWithCache_trace channel s1) as Hget.
  destruct (getThreadsWithCache channel s1) as [[allThreads|e] s2]; simpl in Hget;
    [|apply appended_same_trace; simpl; congruence].
  eapply appended_trans; [apply (appended_same_trace _ s s2); congruence|].
  eapply issues_appended; [apply reconcile_issues|]. apply HP.
Qed.

(** Whatever the platform answers and however often the handler retries,
    the only calls it makes are: un-archive a thread, send the configured
    message, lock a thread. It never archives, never unlocks and never
    sends anything else. *)
Theorem handler_calls_sanctioned thread s :
  appended (sanctioned MESSAGE_CONTENT) s
           (onThreadCreate MESSAGE_CONTENT CHANNEL_ID thread s).2.
Proof.
  unfold onThreadCreate. case_bool_decide; [apply appended_refl|].
  unfold tryCatch.
  pose proof (withRetry_invariant (appended (sanctioned MESSAGE_CONTENT)) sleepState
                (operation MESSAGE_CONTENT CHANNEL_ID thread) RETRY_MAX_ATTEMPTS
                (appended_refl _) (appended_trans _)
                (λ ms s, appended_same_trace _ s (sleepState ms s) eq_refl)) as Hretry.
  specialize (Hretry (λ s, operation_appended _ thread s
                             (λ allThreads c r, actions_sanctioned _ c r)) s).
  by destruct (withRetry _ _ _ s) as [[[]|e] s'].
Qed.

(** *** How many messages one event can cause *)

Lemma sentAtMost_same_trace (s s' : State W) : trace s' = trace s → sentAtMost 0 s s'.
Proof. intros Heq. exists []. by rewrite app_nil_r. Qed.

Lemma sentAtMost_trans (n m : nat) (s1 s2 s3 : State W) :
  sentAtMost n s1 s2 → sentAtMost m s2 s3 → sentAtMost (n + m) s1 s3.
Proof.
  intros (e1 & H1 & Hn) (e2 & H2 & Hm). exists (e1 ++ e2). split.
  - by rewrite H2, H1, app_assoc.
  - rewrite fmap_app, recipients_app, length_app. lia.
Qed.

Lemma sentAtMost_weaken (n m : nat) (s s' : State W) :
  (n ≤ m)%nat → sentAtMost n s s' → sentAtMost m s s'.
Proof. intros Hle (evs & Htrace & Hn). exists evs. split; [done | lia]. Qed.

Lemma reconciliationPlan_one_recipient allThreads thread :
  (length (recipients (flat_map (actions MESSAGE_CONTENT)
                         (reconciliationPlan allThreads thread))) ≤ 1)%nat.
Proof.
  unfold reconciliationPlan. case_bool_decide; [|simpl; lia].
  rewrite actionPlan_recipients. destruct (secondLatest _ _); simpl; lia.
Qed.

(** One run of the operation sends at most one message. *)
Lemma operation_sentAtMost thread s :
  sentAtMost 1 s (operation MESSAGE_CONTENT CHANNEL_ID thread s).2.
Proof.
  unfold operation, bind.
  pose proof (external_trace (fetchChannel CHANNEL_ID) s) as Hfetch.
  destruct (external (fetchChannel CHANNEL_ID) s) as [[channel|e] s1]; simpl in Hfetch.
  2:{ apply (sentAtMost_weaken 0); [lia | by apply sentAtMost_same_trace]. }
  pose proof (getThreadsWithCache_trace channel s1) as Hget.
  destruct (getThreadsWithCache channel s1) as [[allThreads|e] s2]; simpl in Hget.
  2:{ apply (sentAtMost_weaken 0); [lia|]. apply sentAtMost_same_trace. simpl. congruence. }
  apply (sentAtMost_trans 0 1 s s2); [apply sentAtMost_same_trace; congruence|].
  destruct (reconcile_issues MESSAGE_CONTENT allThreads thread s2) as (evs & Htrace & Hran).
  exists evs. split; [done|].
  apply ran_prefix, recipients_prefix in Hran as [k Hk].
  pose proof (reconciliationPlan_one_recipient allThreads thread) as Hone.
  rewrite Hk, length_app in Hone. lia.
Qed.

Lemma retryLoop_sentAtMost thread (maxRetries remaining : nat) :
  ∀ (attempt : nat) (lastError : option JsError) s,
    sentAtMost remaining s
      (retryLoop sleepState (operation MESSAGE_CONTENT CHANNEL_ID thread) maxRetries
                 remaining attempt lastError s).2.
Proof.
  induction remaining as [|remaining IH]; intros attempt lastError s; simpl.
  - by apply sentAtMost_same_trace.
  - pose proof (operation_sentAtMost thread s) as Hop.
    destruct (operation MESSAGE_CONTENT CHANNEL_ID thread s) as [[v|e] s']; simpl in *.
    + apply (sentAtMost_weaken 1); [lia | exact Hop].
    + case_bool_decide; simpl.
      * apply (sentAtMost_weaken 1); [lia | exact Hop].
      * replace (S remaining) with (1 + (0 + remaining))%nat by lia.
        eapply sentAtMost_trans; [exact Hop|].
        eapply sentAtMost_trans; [|apply IH]. by apply sentAtMost_same_trace.
Qed.

(** One [ThreadCreate] event causes at most [RETRY_MAX_ATTEMPTS] messages,
    one for each attempt of the retry executor, whatever the platform
    answers. *)
Theorem handler_sends_at_most_one_per_attempt thread s :
  sentAtMost RETRY_MAX_ATTEMPTS s (onThreadCreate MESSAGE_CONTENT CHANNEL_ID thread s).2.
Proof.
  unfold onThreadCreate. case_bool_decide.
  - apply (sentAtMost_weaken 0); [lia | by apply sentAtMost_same_trace].
  - unfold tryCatch, withRetry.
    pose proof (retryLoop_sentAtMost thread RETRY_MAX_ATTEMPTS RETRY_MAX_ATTEMPTS 1 None s)
      as Hretry.
    by destruct (retryLoop _ _ _ _ _ _ s) as [[[]|e] s'].
Qed.

(** *** No call twice in one pass *)

Lemma actions_NoDup (p : Thread * bool) : NoDup (actions MESSAGE_CONTENT p).
Proof.
  unfold actions. destruct (archived p.1), p.2, (locked p.1); simpl;
    repeat (apply NoDup_cons; split;
            [rewrite ?elem_of_cons, ?elem_of_nil; intros Hin;
             repeat destruct Hin as [Hin|Hin]; done|]);
    apply NoDup_nil_2.
Qed.

Lemma planFrom_calls_NoDup (newThreadId : string) (threads : list Thread) :
  ∀ (P : gset string) (sent : bool),
    NoDup (flat_map (actions MESSAGE_CONTENT) (planFrom P sent newThreadId threads)).
Proof.
  induction threads as [|t rest IH]; intros P sent; simpl; [apply NoDup_nil_2|].
  case_bool_decide as Hskip; [apply IH|].
  simpl. apply NoDup_app. split; [apply actions_NoDup|]. split; [|apply IH].
  intros c Hhere Hlater.
  apply (actions_target MESSAGE_CONTENT) in Hhere. simpl in Hhere.
  apply list_elem_of_In, in_flat_map in Hlater as (p & Hp & Hc).
  apply list_elem_of_In in Hp, Hc.
  apply (actions_target MESSAGE_CONTENT) in Hc.
  destruct (planFrom_elem newThreadId rest _ _ _ Hp) as (_ & _ & Hfresh).
  apply Hfresh, elem_of_union. left. apply elem_of_singleton. congruence.
Qed.

(** In one pass of the batch executor no call is made twice: a thread is
    un-archived, messaged and locked at most once each, also when the
    thread list holds it more than once. *)
Theorem pass_never_repeats_a_call (threads : list Thread) (newThreadId : string) s :
  ∃ evs,
    trace (processThreadsBatch MESSAGE_CONTENT threads newThreadId s).2 = trace s ++ evs ∧
    NoDup (call_of <$> evs).
Proof.
  destruct (processThreadsBatch_issues MESSAGE_CONTENT threads newThreadId s)
    as (evs & Htrace & Hran).
  exists evs. split; [done|].
  apply ran_prefix in Hran as [k Hk].
  pose proof (planFrom_calls_NoDup newThreadId threads ∅ false) as Hplan.
  unfold actionPlan in Hk. rewrite Hk in Hplan.
  by apply NoDup_app in Hplan as [? _].
Qed.

End MoreProgramFacts.

(** ** The performance monitor *)

Section MonitorFacts.

Context {Reading Measurement : Type}.
Variable measure : Reading → Reading → Measurement.

(** What [end] does to the history of every operation. *)
Lemma getMetrics_finish (operation other : string) (reading : Reading) (m : @PerformanceMonitor.t Reading Measurement) :
  PerformanceMonitor.getMetrics other (PerformanceMonitor.finish measure operation reading m)
  = match PerformanceMonitor.metrics m !! operation with
    | Some data =>
        if decide (other = operation) then
          let pushed := PerformanceMonitor.getMetrics operation m ++ [measure data reading] in
          if bool_decide (100 < length pushed)%nat then tail pushed else pushed
        else PerformanceMonitor.getMetrics other m
    | None => PerformanceMonitor.getMetrics other m
    end.
Proof.
  unfold PerformanceMonitor.finish, PerformanceMonitor.getMetrics.
  destruct (PerformanceMonitor.metrics m !! operation) as [data|]; [|done]. simpl.
  destruct (decide (other = operation)) as [->|Hne].
  - rewrite lookup_insert_eq. simpl.
    assert (default [] ((if bool_decide (is_Some (PerformanceMonitor.history m !! operation))
                         then PerformanceMonitor.history m
                         else <[operation := []]> (PerformanceMonitor.history m)) !! operation)
            = default [] (PerformanceMonitor.history m !! operation)) as ->; [|done].
    case_bool_decide as Hhas; [done|]. rewrite lookup_insert_eq.
    destruct (PerformanceMonitor.history m !! operation) eqn:Hh; [|done].
    destruct Hhas. by eexists.
  - rewrite lookup_insert_ne by done.
    case_bool_decide; [done|]. by rewrite lookup_insert_ne.
Qed.

(** However the monitor is used, it keeps at most 100 measurements of an
    operation. *)
Theorem history_bounded (ops : list (@PerformanceMonitor.Op Reading)) (operation : string) :
  (length (PerformanceMonitor.getMetrics operation (PerformanceMonitor.run measure ops))
   ≤ 100)%nat.
Proof.
  unfold PerformanceMonitor.run.
  induction ops as [|op ops IH] using rev_ind.
  - unfold PerformanceMonitor.getMetrics. simpl. rewrite lookup_empty. simpl. lia.
  - rewrite foldl_app. simpl.
    set (m := foldl (PerformanceMonitor.apply measure) PerformanceMonitor.new ops) in *.
    destruct op as [started reading|finished reading]; simpl; [done|].
    rewrite getMetrics_finish.
    destruct (PerformanceMonitor.metrics m !! finished) as [data|]; [|done].
    destruct (decide (operation = finished)) as [->|Hne]; [|done]. simpl.
    case_bool_decide as Hfull; [|lia].
    destruct (PerformanceMonitor.getMetrics finished m) as [|oldest rest];
      simpl in *; rewrite ?length_app in *; simpl in *; lia.
Qed.

(** [end] pairs with the latest [start] of the operation and uses it up: it
    pushes one measurement, taken from the reading of the latest [start],
    and drops the oldest one if that makes more than 100; a second [end]
    with no [start] in between changes nothing. *)
Theorem finish_pairs_with_start (operation : string) (first latest atEnd again : Reading)
    (m : @PerformanceMonitor.t Reading Measurement) :
  let started := PerformanceMonitor.start operation latest
                   (PerformanceMonitor.start operation first m) in
  let ended := PerformanceMonitor.finish measure operation atEnd started in
  let pushed := PerformanceMonitor.getMetrics operation m ++ [measure latest atEnd] in
  PerformanceMonitor.getMetrics operation ended
  = (if bool_decide (100 < length pushed)%nat then tail pushed else pushed) ∧
  PerformanceMonitor.metrics ended !! operation = None ∧
  PerformanceMonitor.finish measure operation again ended = ended.
Proof.
  intros started ended pushed.
  assert (PerformanceMonitor.metrics started !! operation = Some latest) as Hstarted
    by (simpl; apply lookup_insert_eq).
  assert (PerformanceMonitor.metrics ended !! operation = None) as Hended.
  { unfold ended, PerformanceMonitor.finish. rewrite Hstarted. simpl.
    apply lookup_delete_eq. }
  split; [|split; [done|]].
  - unfold ended. by rewrite getMetrics_finish, Hstarted, decide_True by done.
  - unfold PerformanceMonitor.finish at 1. by rewrite Hended.
Qed.

End MonitorFacts.

(** * The first variant of the file *)

(** ** Its rate limiter keeps the limit *)

Lemma basic_canProceed_simulates (now : Z) (threadId : string) (resolve : nat)
    (b : BasicRateLimit.t) (r : RateLimit.t) :
  BasicRateLimit.operations b = RateLimit.operations r →
  BasicRateLimit.maxOperations b = RateLimit.maxOperations r →
  BasicRateLimit.timeWindow b = RateLimit.timeWindow r →
  (BasicRateLimit.canProceed now threadId b).1
  = match (RateLimit.canProceed now threadId resolve r).1 with
    | RateLimit.Immediate => true
    | RateLimit.Suspended => false
    end ∧
  BasicRateLimit.operations (BasicRateLimit.canProceed now threadId b).2
  = RateLimit.operations (RateLimit.canProceed now threadId resolve r).2 ∧
  BasicRateLimit.maxOperations (BasicRateLimit.canProceed now threadId b).2
  = RateLimit.maxOperations (RateLimit.canProceed now threadId resolve r).2 ∧
  BasicRateLimit.timeWindow (BasicRateLimit.canProceed now threadId b).2
  = RateLimit.timeWindow (RateLimit.canProceed now threadId resolve r).2.
Proof.
  intros Hops Hmax Hwindow.
  unfold BasicRateLimit.canProceed, RateLimit.canProceed, RateLimit.validOps.
  rewrite Hops, Hmax, Hwindow. by case_bool_decide.
Qed.

Lemma basic_run_simulates (calls : list (Z * string)) :
  ∀ (b : BasicRateLimit.t) (r : RateLimit.t) (log : list (Z * string)),
    BasicRateLimit.operations b = RateLimit.operations r →
    BasicRateLimit.maxOperations b = RateLimit.maxOperations r →
    BasicRateLimit.timeWindow b = RateLimit.timeWindow r →
    (foldl BasicRateLimit.call (b, log) calls).2
    = (foldl Limiter.step (r, log) ((λ c, Limiter.CallStep c.1 c.2 0) <$> calls)).2.
Proof.
  induction calls as [|[now threadId] calls IH]; intros b r log Hops Hmax Hwindow; [done|].
  simpl. unfold BasicRateLimit.call at 2. simpl.
  destruct (basic_canProceed_simulates now threadId 0 b r Hops Hmax Hwindow)
    as (Hanswer & Hops' & Hmax' & Hwindow').
  destruct (BasicRateLimit.canProceed now threadId b) as [answer b'].
  destruct (RateLimit.canProceed now threadId 0 r) as [[] r'];
    simpl in *; subst answer; by apply IH.
Qed.

Lemma stepTime_calls (calls : list (Z * string)) :
  omap Limiter.stepTime ((λ c, Limiter.CallStep c.1 c.2 0) <$> calls) = calls.*1.
Proof.
  induction calls as [|c calls IH]; [done|].
  rewrite !fmap_cons. cbn [omap list_omap Limiter.stepTime]. by f_equal.
Qed.

(** In the first variant a caller that finds the window full is turned
    away, and the limit holds: with the clock never going back, at most
    [maxOperations] calls of one thread are answered [true] in any window
    of [timeWindow] ms. *)
Theorem basic_rate_limit_holds (maxOps : nat) (window : Z) (calls : list (Z * string))
    (threadId : string) (upto : Z) :
  StronglySorted Z.le calls.*1 →
  (Limiter.within window upto
     (Limiter.timesOf threadId
        (BasicRateLimit.run (BasicRateLimit.new maxOps window) calls).2)
   ≤ maxOps)%nat.
Proof.
  intros Hordered. unfold BasicRateLimit.run.
  rewrite (basic_run_simulates calls (BasicRateLimit.new maxOps window)
             (RateLimit.new maxOps window) []) by done.
  destruct (limiter_invariant (RateLimit.new maxOps window)
              ((λ c, Limiter.CallStep c.1 c.2 0) <$> calls)) as (_ & _ & _ & Hbound);
    [done | by (unfold Limiter.timeOrdered; rewrite stepTime_calls) |].
  apply Hbound.
Qed.

(** ** Its retry executor *)

Section BasicRetryFacts.

Context {St A : Type}.
Variable wait : Z → St → St.
Variable operation : St → Result A * St.
Variable maxRetries : nat.

Lemma basic_retryLoop_succeeds (s : St) (v : A) (more : nat) :
  ∀ failed : nat,
    (failed + more + 1 ≤ maxRetries)%nat →
    (∀ k, (failed ≤ k < failed + more)%nat →
          ∃ e, (operation (Basic.attemptState wait operation s k)).1 = Throw e) →
    (operation (Basic.attemptState wait operation s (failed + more))).1 = Ok v →
    Basic.retryLoop wait operation maxRetries (maxRetries - failed) (S failed)
                    (Basic.attemptState wait operation s failed)
    = (Ok (Some v), (operation (Basic.attemptState wait operation s (failed + more))).2).
Proof.
  induction more as [|more IH]; intros failed Hle Hfail Hok.
  - replace (failed + 0)%nat with failed in * by lia.
    destruct (maxRetries - failed)%nat as [|remaining] eqn:Hrem; [lia|].
    simpl. destruct (operation (Basic.attemptState wait operation s failed)) as [r s'].
    simpl in Hok. by subst r.
  - destruct (maxRetries - failed)%nat as [|remaining] eqn:Hrem; [lia|].
    simpl. destruct (Hfail failed ltac:(lia)) as [e He].
    destruct (operation (Basic.attemptState wait operation s failed)) as [r s'] eqn:Hop.
    simpl in He. subst r.
    rewrite bool_decide_eq_false_2 by lia.
    replace remaining with (maxRetries - S failed)%nat by lia.
    replace (wait (1000 * Z.of_nat (S failed)) s')
      with (Basic.attemptState wait operation s (S failed))
      by (simpl Basic.attemptState; by rewrite Hop).
    replace (failed + S more)%nat with (S failed + more)%nat in * by lia.
    apply IH; [lia | | exact Hok].
    intros k Hk. apply Hfail. lia.
Qed.

Lemma basic_retryLoop_exhausts (s : St) (errors : nat → JsError) (more : nat) :
  ∀ failed : nat,
    (failed + more + 1 = maxRetries)%nat →
    (∀ k, (failed ≤ k < maxRetries)%nat →
          (operation (Basic.attemptState wait operation s k)).1 = Throw (errors k)) →
    Basic.retryLoop wait operation maxRetries (maxRetries - failed) (S failed)
                    (Basic.attemptState wait operation s failed)
    = (Throw (errors (maxRetries - 1)%nat),
       (operation (Basic.attemptState wait operation s (maxRetries - 1))).2).
Proof.
  induction more as [|more IH]; intros failed Hle Hfail.
  - replace (maxRetries - failed)%nat with 1%nat by lia.
    replace (maxRetries - 1)%nat with failed by lia.
    simpl. pose proof (Hfail failed ltac:(lia)) as He.
    destruct (operation (Basic.attemptState wait operation s failed)) as [r s'].
    simpl in He. subst r.
    by rewrite bool_decide_eq_true_2 by lia.
  - destruct (maxRetries - failed)%nat as [|remaining] eqn:Hrem; [lia|].
    simpl. pose proof (Hfail failed ltac:(lia)) as He.
    destruct (operation (Basic.attemptState wait operation s failed)) as [r s'] eqn:Hop.
    simpl in He. subst r.
    rewrite bool_decide_eq_false_2 by lia.
    replace remaining with (maxRetries - S failed)%nat by lia.
    replace (wait (1000 * Z.of_nat (S failed)) s')
      with (Basic.attemptState wait operation s (S failed))
      by (simpl Basic.attemptState; by rewrite Hop).
    apply IH; [lia|].
    intros k Hk. apply Hfail. lia.
Qed.

(** The first variant's [withRetry]: a success at attempt [N ≤ maxRetries]
    after [N - 1] failures is returned; when all [maxRetries ≥ 1] attempts
    fail, the last error itself is thrown, unwrapped; the wait after failed
    attempt [k] is [1000 * k] ms, and there is none after the last attempt.
    With [maxRetries = 0] the operation is not invoked and the function
    returns [undefined] without any error. *)
Theorem basic_withRetry_contract (s : St) :
  (∀ (N : nat) (v : A),
     (1 ≤ N ≤ maxRetries)%nat →
     (∀ k, (k < N - 1)%nat →
           ∃ e, (operation (Basic.attemptState wait operation s k)).1 = Throw e) →
     (operation (Basic.attemptState wait operation s (N - 1))).1 = Ok v →
     Basic.withRetry wait operation maxRetries s
     = (Ok (Some v), (operation (Basic.attemptState wait operation s (N - 1))).2)) ∧
  (∀ errors : nat → JsError,
     (1 ≤ maxRetries)%nat →
     (∀ k, (k < maxRetries)%nat →
           (operation (Basic.attemptState wait operation s k)).1 = Throw (errors k)) →
     Basic.withRetry wait operation maxRetries s
     = (Throw (errors (maxRetries - 1)%nat),
        (operation (Basic.attemptState wait operation s (maxRetries - 1))).2)) ∧
  (maxRetries = 0%nat → Basic.withRetry wait operation maxRetries s = (Ok None, s)).
Proof.
  split; [|split].
  - intros N v HN Hfail Hok. unfold Basic.withRetry.
    pose proof (basic_retryLoop_succeeds s v (N - 1) 0) as Hloop.
    replace (maxRetries - 0)%nat with maxRetries in Hloop by lia.
    simpl in Hloop. apply Hloop; [lia | | exact Hok].
    intros k Hk. apply Hfail. lia.
  - intros errors Hpos Hfail. unfold Basic.withRetry.
    pose proof (basic_retryLoop_exhausts s errors (maxRetries - 1) 0) as Hloop.
    replace (maxRetries - 0)%nat with maxRetries in Hloop by lia.
    simpl in Hloop. apply Hloop; [lia|].
    intros k Hk. apply Hfail. lia.
  - intros ->. reflexivity.
Qed.

End BasicRetryFacts.

(** ** Its cache *)

Section BasicCacheFacts.

Context {W : Type} `{Platform W}.

(** The first variant's cache is one object for all channels. After a
    miss with both fetches answered, the list fetched is stamped with the
    time read before the fetches, and for strictly less than
    [CACHE_DURATION] after that time every call returns it without
    fetching, whatever channel it is asked about. *)
Theorem basic_cache_ignores_channel (channel : Channel) (a b : list Thread) (w w1 w2 : W)
    (cache : ThreadCache.Entry) :
  ¬ (clock w - ThreadCache.timestamp cache < CACHE_DURATION) →
  fetchActive channel w = (Ok a, w1) →
  fetchArchived channel w1 = (Ok b, w2) →
  Basic.getThreadsWithCache channel (w, cache)
  = (Ok (a ++ b), (w2, ThreadCache.mkEntry (clock w) (a ++ b))) ∧
  ∀ (other : Channel) (w' : W),
    clock w' - clock w < CACHE_DURATION →
    Basic.getThreadsWithCache other (w', ThreadCache.mkEntry (clock w) (a ++ b))
    = (Ok (a ++ b), (w', ThreadCache.mkEntry (clock w) (a ++ b))).
Proof.
  intros Hmiss Hactive Harchived. split.
  - unfold Basic.getThreadsWithCache. simpl.
    rewrite bool_decide_eq_false_2 by done. by rewrite Hactive, Harchived.
  - intros other w' Hfresh. unfold Basic.getThreadsWithCache. simpl.
    by rewrite bool_decide_eq_true_2 by done.
Qed.

(** A failed fetch is thrown on and leaves the old cache object in place. *)
Theorem basic_cache_failure_keeps_cache (channel : Channel) (e : JsError) (w : W)
    (cache : ThreadCache.Entry) :
  ¬ (clock w - ThreadCache.timestamp cache < CACHE_DURATION) →
  (fetchActive channel w).1 = Throw e ∨
  (is_Some (get_value (fetchActive channel w).1) ∧
   (fetchArchived channel (fetchActive channel w).2).1 = Throw e) →
  (Basic.getThreadsWithCache channel (w, cache)).1 = Throw e ∧
  (Basic.getThreadsWithCache channel (w, cache)).2.2 = cache.
Proof.
  intros Hmiss Hfail. unfold Basic.getThreadsWithCache. simpl.
  rewrite bool_decide_eq_false_2 by done.
  destruct (fetchActive channel w) as [[a|e1] w1]; simpl in Hfail.
  - destruct Hfail as [|[_ Hfail]]; [done|].
    destruct (fetchArchived channel w1) as [[b|e2] w2]; simpl in Hfail; [done|].
    by injection Hfail as ->.
  - destruct Hfail as [Hfail|[[? ?] _]]; [|done]. by injection Hfail as ->.
Qed.

End BasicCacheFacts.

(** ** The handler's filter and sort *)

(** The list the handler hands to the batch executor holds exactly the
    unlocked threads of the list it got, each as often as there, newest
    first; threads created at the same instant keep their order. *)
Theorem unlockedThreads_sorted_unlocked (allThreads : list Thread) :
  unlockedThreads allThreads ≡ₚ filter (λ t, locked t = false) allThreads ∧
  StronglySorted newerOrSame (unlockedThreads allThreads) ∧
  ∀ instant,
    filter (λ t, createdAt t = instant) (unlockedThreads allThreads)
    = filter (λ t, createdAt t = instant) (filter (λ t, locked t = false) allThreads).
Proof.
  unfold unlockedThreads. split; [apply sort_perm|]. split; [apply sort_sorted|].
  intros instant. apply sort_stable.
Qed.

(** ** What a reconciliation that returns has done *)

Section ReconcileReturns.

Context {W : Type} `{Platform W}.
Variable MESSAGE_CONTENT : string.

(** When the list has at least two unlocked threads and the reconciliation
    returns, every call it made succeeded, every unlocked thread other
    than the trigger has been locked, and every call was on an unlocked
    thread of the list other than the trigger. *)
Theorem reconcile_locks_all_others (allThreads : list Thread) (thread : Thread)
    (s : State W) :
  (2 ≤ length (filter (λ t, locked t = false) allThreads))%nat →
  (reconcile MESSAGE_CONTENT allThreads thread s).1 = Ok tt →
  ∃ evs,
    trace (reconcile MESSAGE_CONTENT allThreads thread s).2 = trace s ++ evs ∧
    Forall succeeded evs ∧
    (∀ t, t ∈ allThreads → locked t = false → id t ≠ id thread →
          Called (SetLocked (id t) true) (Ok tt) ∈ evs) ∧
    (∀ e, e ∈ evs →
          target (call_of e) ≠ id thread ∧
          ∃ t, t ∈ allThreads ∧ locked t = false ∧ id t = target (call_of e)).
Proof.
  intros Htwo Hok.
  destruct (reconcile_issues MESSAGE_CONTENT allThreads thread s) as (evs & Htrace & Hran).
  rewrite Hok in Hran. destruct Hran as [Hcalls Hsucc].
  unfold reconciliationPlan in Hcalls.
  rewrite bool_decide_eq_true_2 in Hcalls by (by rewrite length_unlockedThreads).
  exists evs. split; [done|]. split; [done|]. split.
  - intros t Ht Hunlocked Hne. apply succeeded_elem; [done|]. rewrite Hcalls.
    apply actionPlan_locks; [|by apply elem_of_unlockedThreads|done].
    intros u Hu. by apply elem_of_unlockedThreads in Hu as [_ ?].
  - intros e He.
    assert (call_of e ∈ call_of <$> evs) as Hcall
      by (apply list_elem_of_fmap; by exists e).
    rewrite Hcalls in Hcall.
    split; [by apply (actionPlan_targets MESSAGE_CONTENT) in Hcall|].
    apply list_elem_of_In, in_flat_map in Hcall as (p & Hp & Hc).
    apply list_elem_of_In in Hp, Hc.
    apply (actions_target MESSAGE_CONTENT) in Hc.
    destruct (planFrom_elem _ _ _ _ _ Hp) as (Hin & _ & _).
    apply elem_of_unlockedThreads in Hin as [Hin Hunlocked].
    by exists p.1.
Qed.

End ReconcileReturns.

(** * The further properties at work *)

Lemma immediate_admissions_bounded_witness :
  (Limiter.within RATE_LIMIT_WINDOW 6000
     (Limiter.timesOf "42"
        (Limiter.run (RateLimit.new RATE_LIMIT_MAX_OPS RATE_LIMIT_WINDOW) busy).2)
   ≤ RATE_LIMIT_MAX_OPS)%nat.
Proof.
  apply (immediate_admissions_bounded (RateLimit.new RATE_LIMIT_MAX_OPS RATE_LIMIT_WINDOW)
           busy "42" 6000).
  - reflexivity.
  - unfold Limiter.timeOrdered. simpl.
    repeat (apply SSorted_cons; [|repeat (constructor; [lia|]); constructor]).
    apply SSorted_nil.
Defined.

Lemma cleanup_transparent_witness :
  let r := (Limiter.run (RateLimit.new RATE_LIMIT_MAX_OPS RATE_LIMIT_WINDOW) busy).1 in
  (RateLimit.canProceed 12000 "42" 7 (RateLimit.cleanup 11000 r)).1
  = (RateLimit.canProceed 12000 "42" 7 r).1 ∧
  RateLimit.queue (RateLimit.cleanup 11000 r) = RateLimit.queue r ∧
  ∀ ops, RateLimit.operations (RateLimit.cleanup 11000 r) !! "42" = Some ops →
         ops ≠ [] ∧ Forall (λ time, 11000 - time < RateLimit.timeWindow r) ops.
Proof.
  intros r. apply (cleanup_transparent 11000 12000 "42" 7 r). lia.
Defined.

(** The sweep at 300001 evicts the entry of channel ["old"], set at 0, and
    keeps that of ["chan"], set at 250000; the readers at 400000 see no
    difference. *)
Lemma cache_cleanup_transparent_witness :
  let c := ThreadCache.set 250000 "chan" [thread2]
             (ThreadCache.set 0 "old" [thread1] (ThreadCache.new CACHE_DURATION)) in
  (is_Some (ThreadCache.cache c !! "old") ∧
   ThreadCache.cache (ThreadCache.cleanup 300001 c) !! "old" = None) ∧
  ((ThreadCache.get 400000 "chan" (ThreadCache.cleanup 300001 c)).1
   = (ThreadCache.get 400000 "chan" c).1 ∧
   (ThreadCache.get 400000 "chan" c).1 = Some [thread2]) ∧
  ((ThreadCache.get 400000 "old" (ThreadCache.cleanup 300001 c)).1
   = (ThreadCache.get 400000 "old" c).1 ∧
   (ThreadCache.get 400000 "old" c).1 = None).
Proof.
  intros c. split; [|split].
  - split; [eexists|]; vm_compute; reflexivity.
  - split; [|vm_compute; reflexivity].
    apply (cache_cleanup_transparent 300001 400000 "chan" c). lia.
  - split; [|vm_compute; reflexivity].
    apply (cache_cleanup_transparent 300001 400000 "old" c). lia.
Defined.

Lemma getThreadsWithCache_memoizes_witness :
  let s := boot (mkScripted 0 [] [thread1; thread2] [archived1]) in
  (getThreadsWithCache (mkChannel "chan") s).1 = Ok ([thread1; thread2] ++ [archived1]) ∧
  world (getThreadsWithCache (mkChannel "chan") s).2 = world s ∧
  ∀ s' : State Scripted,
        threadCache s' = threadCache (getThreadsWithCache (mkChannel "chan") s).2 →
        clock (world s') - clock (world s) ≤ ThreadCache.duration (threadCache s) →
        getThreadsWithCache (mkChannel "chan") s'
        = (Ok ([thread1; thread2] ++ [archived1]), s').
Proof.
  intros s.
  apply (getThreadsWithCache_memoizes (mkChannel "chan") [thread1; thread2] [archived1]
           (world s) (world s) s); reflexivity.
Defined.

(** The active threads cannot be fetched, the archived ones can: the
    error thrown is that of the active fetch. *)
Lemma getThreadsWithCache_failure_witness :
  (fetchArchived (mkChannel "chan") (boot (mkOutage 0)).(world)).1 = Ok [] ∧
  (getThreadsWithCache (mkChannel "chan") (boot (mkOutage 0))).1 = Throw requestTimedOut ∧
  ThreadCache.cache (threadCache (getThreadsWithCache (mkChannel "chan") (boot (mkOutage 0))).2)
    !! "chan" = None.
Proof.
  split; [reflexivity|].
  destruct (getThreadsWithCache_failure (mkChannel "chan") (boot (mkOutage 0)))
    as (e & Hthrow & [Hactive|Harchived] & Hgone).
  - reflexivity.
  - left. reflexivity.
  - injection Hactive as <-. split; [exact Hthrow | exact Hgone].
  - discriminate Harchived.
Defined.

Lemma basic_rate_limit_holds_witness :
  (Limiter.within RATE_LIMIT_WINDOW 9500
     (Limiter.timesOf "42"
        (BasicRateLimit.run (BasicRateLimit.new RATE_LIMIT_MAX_OPS RATE_LIMIT_WINDOW) burst).2)
   ≤ RATE_LIMIT_MAX_OPS)%nat.
Proof.
  apply (basic_rate_limit_holds RATE_LIMIT_MAX_OPS RATE_LIMIT_WINDOW burst "42" 9500).
  simpl.
  repeat (apply SSorted_cons; [|repeat (constructor; [lia|]); constructor]).
  apply SSorted_nil.
Defined.

Lemma basic_withRetry_contract_witness :
  Basic.withRetry tick (flaky 1) 2 (0%nat, 0) = (Ok (Some 2%nat), (2%nat, 1000)) ∧
  Basic.withRetry tick (flaky 5) 3 (0%nat, 0)
  = (Throw (Error "attempt 3 failed"), (3%nat, 3000)) ∧
  Basic.withRetry tick (flaky 0) 0 (0%nat, 0) = (Ok None, (0%nat, 0)).
Proof.
  split; [|split].
  - etransitivity.
    + apply (proj1 (basic_withRetry_contract tick (flaky 1) 2 (0%nat, 0)) 2%nat 2%nat).
      * lia.
      * intros k Hk. assert (k = 0%nat) as -> by lia. eexists. reflexivity.
      * reflexivity.
    + vm_compute. reflexivity.
  - etransitivity.
    + apply (proj1 (proj2 (basic_withRetry_contract tick (flaky 5) 3 (0%nat, 0)))
               (λ k, Error ("attempt " +:+ pretty (S k) +:+ " failed"))).
      * lia.
      * intros k Hk. destruct k as [|[|[|k]]]; [reflexivity .. | lia].
    + vm_compute. reflexivity.
  - apply (proj2 (proj2 (basic_withRetry_contract tick (flaky 0) 0 (0%nat, 0)))).
    reflexivity.
Defined.

Lemma basic_cache_ignores_channel_witness :
  let w := quiet 400000 [thread1; thread2] in
  Basic.getThreadsWithCache (mkChannel "chan") (w, Basic.initialCache)
  = (Ok ([thread1; thread2] ++ []), (w, ThreadCache.mkEntry (clock w) ([thread1; thread2] ++ []))) ∧
  ∀ (other : Channel) (w' : Scripted),
    clock w' - clock w < CACHE_DURATION →
    Basic.getThreadsWithCache other (w', ThreadCache.mkEntry (clock w) ([thread1; thread2] ++ []))
    = (Ok ([thread1; thread2] ++ []),
       (w', ThreadCache.mkEntry (clock w) ([thread1; thread2] ++ []))).
Proof.
  intros w.
  apply (basic_cache_ignores_channel (mkChannel "chan") [thread1; thread2] [] w w w
           Basic.initialCache).
  - vm_compute. intros Hlt. discriminate Hlt.
  - reflexivity.
  - reflexivity.
Defined.

Lemma basic_cache_failure_keeps_cache_witness :
  (Basic.getThreadsWithCache (mkChannel "chan") (mkOutage 400000, Basic.initialCache)).1
  = Throw requestTimedOut ∧
  (Basic.getThreadsWithCache (mkChannel "chan") (mkOutage 400000, Basic.initialCache)).2.2
  = Basic.initialCache.
Proof.
  apply (basic_cache_failure_keeps_cache (mkChannel "chan") requestTimedOut
           (mkOutage 400000) Basic.initialCache).
  - vm_compute. intros Hlt. discriminate Hlt.
  - left. reflexivity.
Defined.

Lemma reconcile_locks_all_others_witness :
  let s := boot (quiet 0 [thread1; thread2; thread3]) in
  ∃ evs,
    trace (reconcile "moved" [thread1; thread2; thread3] thread3 s).2 = trace s ++ evs ∧
    Forall succeeded evs ∧
    (∀ t, t ∈ [thread1; thread2; thread3] → locked t = false → id t ≠ id thread3 →
          Called (SetLocked (id t) true) (Ok tt) ∈ evs) ∧
    (∀ e, e ∈ evs →
          target (call_of e) ≠ id thread3 ∧
          ∃ t, t ∈ [thread1; thread2; thread3] ∧ locked t = false ∧
               id t = target (call_of e)).
Proof.
  intros s.
  apply (reconcile_locks_all_others "moved" [thread1; thread2; thread3] thread3 s).
  - simpl. lia.
  - vm_compute. reflexivity.
Defined.
